(** * razr / schema: a shallow embedding of [packages/schema/mod.ts]

    The validators of [mod.ts] are closures over JavaScript values.  The
    embedding keeps the shape of the source:

    - a JavaScript value is a [JsValue]; numbers are IEEE doubles
      ([PrimFloat.float]), arrays are lists, objects carry their prototype
      and their own properties in enumeration order;
    - a call may return or throw, and a child schema handed to a combinator
      is an arbitrary object with a [safeParse] method, so a computation is
      a function from the state of the world to a completion and a new
      world (monad [M]);
    - [createSchema], [prependKeyToIssues], [string], [number], [boolean],
      [array], [object], [maybe] and [defaulted] are translated line by
      line, the two [for] loops as structural recursions over what is left
      to visit. *)

From Stdlib Require Import Floats ZArith String Bool Lia.
From Stdlib Require Strings.Byte.
From stdpp Require Import base list strings option.

Local Open Scope string_scope.
Local Open Scope list_scope.

(** The validator [string] of the source takes the name of Rocq's type of
    strings; the type is written [text] from here on. *)
Abbreviation text := String.string.

(** ** JavaScript values *)

(** What [Object.getPrototypeOf] can answer: [null], [Object.prototype], or
    any other prototype object (named, as in ["Array.prototype"]). *)
Inductive Proto : Type :=
| ProtoNull
| ProtoObject
| ProtoOther (name : text).

#[warnings="-register-all"]
Inductive JsValue : Type :=
| JsUndefined
| JsNull
| JsBoolean (b : bool)
| JsNumber (n : float)
| JsString (s : text)
| JsBigInt (z : Z)
| JsSymbol (description : text)
| JsFunction (name : text)
| JsArray (elems : list JsValue)
| JsObject (proto : Proto) (props : list (text * JsValue)).

(** [typeof value] *)
Definition typeof (value : JsValue) : text :=
  match value with
  | JsUndefined => "undefined"
  | JsNull => "object"
  | JsBoolean _ => "boolean"
  | JsNumber _ => "number"
  | JsString _ => "string"
  | JsBigInt _ => "bigint"
  | JsSymbol _ => "symbol"
  | JsFunction _ => "function"
  | JsArray _ => "object"
  | JsObject _ _ => "object"
  end.

(** [Number.isFinite(value)]: a number that is neither NaN nor an infinity. *)
Definition Number_isFinite (value : JsValue) : bool :=
  match value with
  | JsNumber n => negb (PrimFloat.is_nan n) && negb (PrimFloat.is_infinity n)
  | _ => false
  end.

(** [Array.isArray(input)] *)
Definition Array_isArray (input : JsValue) : bool :=
  match input with
  | JsArray _ => true
  | _ => false
  end.

(** [input === null] and [input === undefined] *)
Definition is_null (input : JsValue) : bool :=
  match input with
  | JsNull => true
  | _ => false
  end.

Definition is_undefined (input : JsValue) : bool :=
  match input with
  | JsUndefined => true
  | _ => false
  end.

(** [proto === null] and [proto === Object.prototype] *)
Definition proto_is_null (proto : Proto) : bool :=
  match proto with
  | ProtoNull => true
  | _ => false
  end.

Definition proto_is_Object_prototype (proto : Proto) : bool :=
  match proto with
  | ProtoObject => true
  | _ => false
  end.

(** [a[i]] on an array: [undefined] past the end. *)
Definition array_get (a : list JsValue) (i : nat) : JsValue :=
  default JsUndefined (a !! i).

(** [a[i] = v] on an array: in place within the bounds; past the end the
    array grows, with empty slots up to [i]. *)
Definition array_set (a : list JsValue) (i : nat) (v : JsValue)
  : list JsValue :=
  if Nat.ltb i (length a) then <[i := v]> a
  else a ++ replicate (i - length a) JsUndefined ++ [v].

(** The elements of a value that passed [Array.isArray]. *)
Definition array_elements (input : JsValue) : list JsValue :=
  match input with
  | JsArray elems => elems
  | _ => []
  end.

(** Own properties, kept in enumeration order. *)
Fixpoint own_property (props : list (text * JsValue)) (key : text)
  : option JsValue :=
  match props with
  | [] => None
  | (k, v) :: rest => if String.eqb k key then Some v else own_property rest key
  end.

(** The data properties of [Object.prototype], which every object with
    that prototype inherits: built-in functions, none of them enumerable. *)
Definition Object_prototype : list (text * JsValue) :=
  [("constructor", JsFunction "Object");
   ("hasOwnProperty", JsFunction "hasOwnProperty");
   ("isPrototypeOf", JsFunction "isPrototypeOf");
   ("propertyIsEnumerable", JsFunction "propertyIsEnumerable");
   ("toLocaleString", JsFunction "toLocaleString");
   ("toString", JsFunction "toString");
   ("valueOf", JsFunction "valueOf");
   ("__defineGetter__", JsFunction "__defineGetter__");
   ("__defineSetter__", JsFunction "__defineSetter__");
   ("__lookupGetter__", JsFunction "__lookupGetter__");
   ("__lookupSetter__", JsFunction "__lookupSetter__")].

(** What an object finds along its prototype chain: nothing under a [null]
    prototype; under [Object.prototype] its data properties and the
    accessor [__proto__], which answers [Object.prototype] itself, an
    object that has no prototype and answers [null] when asked for its own
    [__proto__].  The chains of other prototypes are not modelled:
    [object] never reads a property of such a value. *)
Definition inherited_property (proto : Proto) (key : text) : option JsValue :=
  match proto with
  | ProtoObject =>
      if String.eqb key "__proto__"
      then Some (JsObject ProtoNull (("__proto__", JsNull) :: Object_prototype))
      else own_property Object_prototype key
  | _ => None
  end.

(** [o[key]] on an object of prototype [proto] and own properties [props]:
    the own property, else the inherited one, else [undefined]. *)
Definition get_prop (proto : Proto) (props : list (text * JsValue))
    (key : text) : JsValue :=
  match own_property props key with
  | Some v => v
  | None => default JsUndefined (inherited_property proto key)
  end.

(** [o[key] = v]: overwrite in place when the key exists, append otherwise. *)
Fixpoint set_prop (props : list (text * JsValue)) (key : text) (v : JsValue)
  : list (text * JsValue) :=
  match props with
  | [] => [(key, v)]
  | (k, x) :: rest =>
      if String.eqb k key then (k, v) :: rest else (k, x) :: set_prop rest key v
  end.

(** The assignments [value[key] = v] of a list of fields, in order. *)
Definition assign_fields (value fields : list (text * JsValue))
  : list (text * JsValue) :=
  foldl (fun acc kv => set_prop acc (fst kv) (snd kv)) value fields.

(** ** Issues and results *)

(** [StandardSchemaV1.Issue] and [StandardSchemaV1.Result]. *)

(** A path segment is a [PropertyKey]: an array index or a field name. *)
Inductive PathSegment : Type :=
| Index (i : nat)
| Key (k : text).

Record Issue : Type := mkIssue {
  message : text;
  path : option (list PathSegment)
}.

(** [{ value }] or [{ issues }]. *)
Inductive Result : Type :=
| Success (value : JsValue)
| Failure (issues : list Issue).

(** [{ issues: [{ message }] }]: one issue, no path. *)
Definition single_issue (message : text) : Result :=
  Failure [mkIssue message None].

(** A result as the contract has it: a success, or a failure with at least
    one issue. *)
Definition well_formed (result : Result) : Prop :=
  match result with
  | Success _ => True
  | Failure issues => issues <> []
  end.

(** ** Completions *)

(** What the code can throw: the [SchemaError] of [parse], and the
    [TypeError] of the runtime. *)
Inductive Exn : Type :=
| SchemaError (issues : list Issue)
| TypeError (reason : text).

Inductive Completion (A : Type) : Type :=
| Return (a : A)
| Throw (e : Exn).

Arguments Return {A} a.
Arguments Throw {A} e.

Section Model.

Context {World : Type}.

(** A computation runs in a world and leaves a world behind, also when it
    throws. *)
Definition M (A : Type) : Type := World -> Completion A * World.

Definition ret {A : Type} (a : A) : M A := fun w => (Return a, w).

Definition throw {A : Type} (e : Exn) : M A := fun w => (Throw e, w).

Definition bind {A B : Type} (c : M A) (k : A -> M B) : M B :=
  fun w =>
    match c w with
    | (Return a, w') => k a w'
    | (Throw e, w') => (Throw e, w')
    end.

Notation "'let*' x ':=' c 'in' k" := (bind c (fun x => k))
  (at level 10, x name, c at level 100, k at level 200).

(** ** The schema interface *)

(** The object under the reserved ["~standard"] property. *)
Record StandardProps : Type := mkStandardProps {
  validate : JsValue -> M Result;
  vendor : text;
  version : Z
}.

(** [interface Schema]; the field [standard] is the ["~standard"]
    property. *)
Record Schema : Type := mkSchema {
  parse : JsValue -> M JsValue;
  safeParse : JsValue -> M Result;
  standard : StandardProps
}.

(** [interface ObjectSchema extends Schema]: a schema and its [shape], the
    fields in the order [for (const key in shape)] visits them. *)
Record ObjectSchema : Type := mkObjectSchema {
  shape : list (text * Schema);
  schema_of :> Schema
}.

(** [Object.getPrototypeOf(input)]: a [TypeError] on [null] and
    [undefined], the wrapper's prototype on a primitive. *)
Definition Object_getPrototypeOf (input : JsValue) : M Proto :=
  match input with
  | JsUndefined | JsNull =>
      throw (TypeError "Cannot convert undefined or null to object")
  | JsBoolean _ => ret (ProtoOther "Boolean.prototype")
  | JsNumber _ => ret (ProtoOther "Number.prototype")
  | JsString _ => ret (ProtoOther "String.prototype")
  | JsBigInt _ => ret (ProtoOther "BigInt.prototype")
  | JsSymbol _ => ret (ProtoOther "Symbol.prototype")
  | JsFunction _ => ret (ProtoOther "Function.prototype")
  | JsArray _ => ret (ProtoOther "Array.prototype")
  | JsObject proto _ => ret proto
  end.

(** [isObject] *)
Definition isObject (input : JsValue) : M bool :=
  if is_null input || is_undefined input then ret false
  else
    let* proto := Object_getPrototypeOf input in
    ret (proto_is_null proto || proto_is_Object_prototype proto).

(** [input[key]]: the property of an object, a [TypeError] on [null] and
    [undefined] as the runtime raises it.  [object] asks for a property
    only once [isObject] has answered yes, so the other kinds of value are
    never looked into; they answer [undefined] here. *)
Definition Get (input : JsValue) (key : text) : M JsValue :=
  match input with
  | JsObject proto props => ret (get_prop proto props key)
  | JsUndefined | JsNull =>
      throw (TypeError "Cannot read properties of undefined or null")
  | _ => ret JsUndefined
  end.

(** [createSchema] *)
Definition createSchema (safeParse : JsValue -> M Result) : Schema :=
  let parse := fun input : JsValue =>
    let* result := safeParse input in
    match result with
    | Failure issues => throw (SchemaError issues)
    | Success value => ret value
    end in
  {| parse := parse;
     safeParse := safeParse;
     standard := {| validate := fun value => safeParse value;
                    vendor := "razr";
                    version := 1 |} |}.

(** [prependKeyToIssues] *)
Definition prependKeyToIssues (key : PathSegment) (issues : list Issue)
  : list Issue :=
  map (fun issue =>
         {| message := message issue;
            path := match path issue with
                    | Some p => Some (key :: p)
                    | None => Some [key]
                    end |}) issues.

(** An optional [message] parameter with its default. *)
Definition with_default (d : text) (message : option text) : text :=
  default d message.

(** [string] *)
Definition string (message : option text) : Schema :=
  let message := with_default "Expected string" message in
  createSchema (fun value =>
    if String.eqb "string" (typeof value) then ret (Success value)
    else ret (single_issue message)).

(** [number] *)
Definition number (message : option text) : Schema :=
  let message := with_default "Expected number" message in
  createSchema (fun value =>
    if String.eqb "number" (typeof value) && Number_isFinite value
    then ret (Success value)
    else ret (single_issue message)).

(** [boolean] *)
Definition boolean (message : option text) : Schema :=
  let message := with_default "Expected boolean" message in
  createSchema (fun value =>
    if String.eqb "boolean" (typeof value) then ret (Success value)
    else ret (single_issue message)).

(** The loop of [array]: [i] is the loop counter, [remaining] is [len - i],
    [value] the array under construction. *)
Fixpoint array_loop (schema : Schema) (input : list JsValue)
    (i remaining : nat) (value : list JsValue) : M Result :=
  match remaining with
  | O => ret (Success (JsArray value))
  | S remaining' =>
      let* result := safeParse schema (array_get input i) in
      match result with
      | Failure issues => ret (Failure (prependKeyToIssues (Index i) issues))
      | Success v =>
          array_loop schema input (S i) remaining' (array_set value i v)
      end
  end.

(** [array]; [new Array(len)] is [len] empty slots. *)
Definition array (schema : Schema) (message : option text) : Schema :=
  let message := with_default "Expected array" message in
  createSchema (fun input =>
    if negb (Array_isArray input) then ret (single_issue message)
    else
      let elems := array_elements input in
      let len := length elems in
      let value := replicate len JsUndefined in
      array_loop schema elems 0 len value).

(** The loop of [object] over the fields of [shape] still to visit;
    [value] is the record under construction. *)
Fixpoint object_loop (shape : list (text * Schema)) (input : JsValue)
    (value : list (text * JsValue)) : M Result :=
  match shape with
  | [] => ret (Success (JsObject ProtoNull value))
  | (key, schema) :: shape' =>
      let* field := Get input key in
      let* result := safeParse schema field in
      match result with
      | Failure issues => ret (Failure (prependKeyToIssues (Key key) issues))
      | Success v => object_loop shape' input (set_prop value key v)
      end
  end.

(** [object]; [Object.create(null)] is the record with no prototype and no
    property. *)
Definition object (shape : list (text * Schema)) (message : option text)
  : ObjectSchema :=
  let message := with_default "Expected object" message in
  {| shape := shape;
     schema_of := createSchema (fun input =>
       let* plain := isObject input in
       if negb plain then ret (single_issue message)
       else object_loop shape input []) |}.

(** [maybe] *)
Definition maybe (schema : Schema) : Schema :=
  createSchema (fun value =>
    if is_null value || is_undefined value then ret (Success JsUndefined)
    else safeParse schema value).

(** [defaulted] *)
Definition defaulted (schema : Schema) (defaultValue : JsValue) : Schema :=
  createSchema (fun value =>
    if is_null value || is_undefined value then ret (Success defaultValue)
    else safeParse schema value).

(** ** The [literal] constructor *)

(** The values [literal] takes as targets: text, numeric, boolean and the
    null value. *)
Inductive Literal : Type :=
| LitString (s : text)
| LitNumber (n : float)
| LitBoolean (b : bool)
| LitNull.

(** [input === value] for a literal target: same runtime kind and same
    value, numbers compared as IEEE doubles. *)
Definition strict_equals (input : JsValue) (value : Literal) : bool :=
  match value, input with
  | LitString s, JsString t => String.eqb t s
  | LitNumber n, JsNumber m => PrimFloat.eqb m n
  | LitBoolean b, JsBoolean c => Bool.eqb c b
  | LitNull, JsNull => true
  | _, _ => false
  end.

(** Modelled from the spec: the constructor [literal(value, message)],
    which [mod.test.ts] imports from [./mod.ts] and [mod.ts] as given does
    not define.  The spec has it succeed iff the input is strictly equal to
    [value], return the input unchanged as the other primitive validators
    do, and fail with a single issue that has no path. *)
Definition literal (value : Literal) (message : text) : Schema :=
  createSchema (fun input =>
    if strict_equals input value then ret (Success input)
    else ret (single_issue message)).

(** ** Schemas built from the construction API *)

(** The schemas one obtains by calling the constructors only, children
    included; [api_shape] is the same for the fields of a shape. *)
Inductive api_schema : Schema -> Prop :=
| api_string message : api_schema (string message)
| api_number message : api_schema (number message)
| api_boolean message : api_schema (boolean message)
| api_literal value message : api_schema (literal value message)
| api_array schema message :
    api_schema schema -> api_schema (array schema message)
| api_object shape message :
    api_shape shape -> api_schema (object shape message)
| api_maybe schema :
    api_schema schema -> api_schema (maybe schema)
| api_defaulted schema defaultValue :
    api_schema schema -> api_schema (defaulted schema defaultValue)
with api_shape : list (text * Schema) -> Prop :=
| api_shape_nil : api_shape []
| api_shape_cons key schema shape :
    api_schema schema -> api_shape shape -> api_shape ((key, schema) :: shape).

Scheme api_schema_mut := Minimality for api_schema Sort Prop
with api_shape_mut := Minimality for api_shape Sort Prop.

Combined Scheme api_mutind from api_schema_mut, api_shape_mut.

(** ** Runs of child validators *)

(** [elements_pass schema xs w vs w']: started in world [w], [schema]
    accepts the elements [xs] one after the other, yields the values [vs]
    and leaves the world [w']. *)
Inductive elements_pass (schema : Schema)
  : list JsValue -> World -> list JsValue -> World -> Prop :=
| elements_pass_nil w : elements_pass schema [] w [] w
| elements_pass_cons x xs w v w1 vs w2 :
    safeParse schema x w = (Return (Success v), w1) ->
    elements_pass schema xs w1 vs w2 ->
    elements_pass schema (x :: xs) w (v :: vs) w2.

(** [fields_pass proto props shape w out w']: started in world [w], the
    fields of [shape] accept, one after the other, the properties of the
    same name of the object of prototype [proto] and own properties
    [props], yield the values [out] and leave the world [w']. *)
Inductive fields_pass (proto : Proto) (props : list (text * JsValue))
  : list (text * Schema) -> World -> list (text * JsValue) -> World -> Prop :=
| fields_pass_nil w : fields_pass proto props [] w [] w
| fields_pass_cons key schema shape w v w1 out w2 :
    safeParse schema (get_prop proto props key) w = (Return (Success v), w1) ->
    fields_pass proto props shape w1 out w2 ->
    fields_pass proto props ((key, schema) :: shape) w ((key, v) :: out) w2.

(** A plain data object: its prototype is [null] or [Object.prototype]. *)
Definition plain_proto (proto : Proto) : Prop :=
  proto = ProtoNull \/ proto = ProtoObject.

(** The inputs [object] turns away, in the words of its contract: [null],
    [undefined], and every value whose prototype is neither [null] nor
    [Object.prototype]. *)
Definition not_plain_data_object (input : JsValue) : Prop :=
  input = JsNull \/
  input = JsUndefined \/
  exists proto,
    (forall w, Object_getPrototypeOf input w = (Return proto, w)) /\
    proto <> ProtoNull /\ proto <> ProtoObject.

(** [fails_inside schema input w segs issues w']: somewhere inside a nesting
    of combinators an inner validator returns [issues]; [segs] lists, from
    the outermost combinator inwards, the index or field under which each
    enclosing [array] or [object] reached the failing validator.  Everything
    visited before it passes. *)
Inductive fails_inside
  : Schema -> JsValue -> World -> list PathSegment -> list Issue -> World
    -> Prop :=
| fails_here schema input w issues w' :
    safeParse schema input w = (Return (Failure issues), w') ->
    fails_inside schema input w [] issues w'
| fails_in_array schema message before x after w vs w1 segs issues w2 :
    elements_pass schema before w vs w1 ->
    fails_inside schema x w1 segs issues w2 ->
    fails_inside (array schema message) (JsArray (before ++ x :: after)) w
      (Index (length before) :: segs) issues w2
| fails_in_object fields key schema later message proto props w out w1
    segs issues w2 :
    plain_proto proto ->
    fields_pass proto props fields w out w1 ->
    fails_inside schema (get_prop proto props key) w1 segs issues w2 ->
    fails_inside (object (fields ++ (key, schema) :: later) message)
      (JsObject proto props) w (Key key :: segs) issues w2
| fails_in_maybe schema input w segs issues w' :
    is_null input || is_undefined input = false ->
    fails_inside schema input w segs issues w' ->
    fails_inside (maybe schema) input w segs issues w'
| fails_in_defaulted schema defaultValue input w segs issues w' :
    is_null input || is_undefined input = false ->
    fails_inside schema input w segs issues w' ->
    fails_inside (defaulted schema defaultValue) input w segs issues w'.

(** The path an issue ends with once the segments [segs] (outermost first)
    have been put in front of it. *)
Definition path_under (segs : list PathSegment) (issue : Issue) : Issue :=
  match segs with
  | [] => issue
  | _ => {| message := message issue;
            path := Some (segs ++ default [] (path issue)) |}
  end.

(** What holds of a schema that is total and pure: in every world it
    returns a well-formed result and leaves the world as it was. *)
Definition returns_result (schema : Schema) : Prop :=
  forall input w,
    exists result, safeParse schema input w = (Return result, w) /\
                   well_formed result.

Definition fields_return_result (shape : list (text * Schema)) : Prop :=
  forall proto props value w,
    exists result,
      object_loop shape (JsObject proto props) value w = (Return result, w) /\
      well_formed result.

End Model.

Arguments M World A : clear implicits.
Arguments Schema World : clear implicits.
Arguments ObjectSchema World : clear implicits.
Arguments StandardProps World : clear implicits.
Arguments not_plain_data_object World input : clear implicits.

(** ** An observer *)

(** A hand-written schema, as the interface allows: it records every input
    it is called on (the world is the list of recorded inputs) and then
    behaves as [schema]. *)
Definition spy (schema : Schema (list JsValue)) : Schema (list JsValue) :=
  createSchema (fun input calls => safeParse schema input (calls ++ [input])).

(** A schema under observation: a spy on a schema that returns a result in
    every world and leaves the world alone, as the schemas of the API do. *)
Definition observed (schema : Schema (list JsValue)) : Prop :=
  exists inner, schema = spy inner /\ returns_result inner.

(** A hand-written schema whose [safeParse] always throws. *)
Definition throwing {World : Type} : Schema World :=
  createSchema (fun _ => throw (TypeError "not callable")).

(** ** The order of [for (const key in shape)] *)

(** The value of a decimal digit. *)
Definition digit_value (c : Ascii.ascii) : option N :=
  let code := Ascii.N_of_ascii c in
  if N.leb 48 code && N.leb code 57 then Some (code - 48)%N else None.

(** The number a string of decimal digits writes, after [acc]. *)
Fixpoint decimal_value (s : text) (acc : N) : option N :=
  match s with
  | EmptyString => Some acc
  | String c s' =>
      match digit_value c with
      | Some d => decimal_value s' (10 * acc + d)%N
      | None => None
      end
  end.

(** The property keys that are array indices: the canonical decimal
    writing, with no leading zero, of an integer below [2^32 - 1]. *)
Definition array_index (key : text) : option N :=
  match key with
  | EmptyString => None
  | String c rest =>
      if N.eqb (Ascii.N_of_ascii c) 48
      then match rest with
           | EmptyString => Some 0%N
           | _ => None
           end
      else match decimal_value key 0 with
           | Some n => if N.ltb n (2 ^ 32 - 1) then Some n else None
           | None => None
           end
  end.

(** Insertion of a field of index [n] among fields kept in ascending order
    of index. *)
Fixpoint insert_index {A : Type} (n : N) (field : text * A)
    (l : list (N * (text * A))) : list (N * (text * A)) :=
  match l with
  | [] => [(n, field)]
  | (m, g) :: rest =>
      if N.leb n m then (n, field) :: (m, g) :: rest
      else (m, g) :: insert_index n field rest
  end.

(** The fields whose name is an array index, with that index, in ascending
    order. *)
Fixpoint index_fields {A : Type} (written : list (text * A))
  : list (N * (text * A)) :=
  match written with
  | [] => []
  | (key, a) :: rest =>
      match array_index key with
      | Some n => insert_index n (key, a) (index_fields rest)
      | None => index_fields rest
      end
  end.

(** The other fields, in the order they were written. *)
Fixpoint named_fields {A : Type} (written : list (text * A))
  : list (text * A) :=
  match written with
  | [] => []
  | (key, a) :: rest =>
      match array_index key with
      | Some _ => named_fields rest
      | None => (key, a) :: named_fields rest
      end
  end.

(** The order in which [for ... in] visits the properties of an object
    whose properties were defined in the order [written]: first the array
    indices in ascending order, then the other names in the order of their
    definition. *)
Definition for_in_order {A : Type} (written : list (text * A))
  : list (text * A) :=
  map snd (index_fields written) ++ named_fields written.

(** A list of numbers in ascending order. *)
Fixpoint ascending (l : list N) : Prop :=
  match l with
  | [] => True
  | n :: rest => Forall (fun m => (n <= m)%N) rest /\ ascending rest
  end.

(** [object(shape, message)] for a shape whose fields were defined in the
    order [written]: the loop of [object] visits them in the order of
    [for ... in]. *)
Definition object_written {World : Type}
    (written : list (text * Schema World)) (message : option text)
  : ObjectSchema World :=
  object (for_in_order written) message.

(** ** Schemas of [mod.ts] *)

Section Sources.

Context {World : Type}.

(** The schemas one obtains from the constructors that [mod.ts] defines,
    children included. *)
Inductive source_schema : Schema World -> Prop :=
| source_string message : source_schema (string message)
| source_number message : source_schema (number message)
| source_boolean message : source_schema (boolean message)
| source_array schema message :
    source_schema schema -> source_schema (array schema message)
| source_object shape message :
    source_shape shape -> source_schema (object shape message)
| source_maybe schema :
    source_schema schema -> source_schema (maybe schema)
| source_defaulted schema defaultValue :
    source_schema schema -> source_schema (defaulted schema defaultValue)
with source_shape : list (text * Schema World) -> Prop :=
| source_shape_nil : source_shape []
| source_shape_cons key schema shape :
    source_schema schema -> source_shape shape ->
    source_shape ((key, schema) :: shape).

Scheme source_schema_mut := Minimality for source_schema Sort Prop
with source_shape_mut := Minimality for source_shape Sort Prop.

Combined Scheme source_mutind from source_schema_mut, source_shape_mut.

(** The same schemas, where moreover the fields of a shape have pairwise
    distinct names (as the keys of an object have) and every default is a
    value its own child returns unchanged. *)
Inductive settled : Schema World -> Prop :=
| settled_string message : settled (string message)
| settled_number message : settled (number message)
| settled_boolean message : settled (boolean message)
| settled_array schema message :
    settled schema -> settled (array schema message)
| settled_object shape message :
    NoDup (map fst shape) -> settled_shape shape ->
    settled (object shape message)
| settled_maybe schema :
    settled schema -> settled (maybe schema)
| settled_defaulted schema defaultValue :
    settled schema ->
    (forall w, safeParse schema defaultValue w
               = (Return (Success defaultValue), w)) ->
    settled (defaulted schema defaultValue)
with settled_shape : list (text * Schema World) -> Prop :=
| settled_shape_nil : settled_shape []
| settled_shape_cons key schema shape :
    settled schema -> settled_shape shape ->
    settled_shape ((key, schema) :: shape).

Scheme settled_mut := Minimality for settled Sort Prop
with settled_shape_mut := Minimality for settled_shape Sort Prop.

Combined Scheme settled_mutind from settled_mut, settled_shape_mut.

(** What makes a validated value a fixed point: a success leaves the world
    alone, its value is accepted again, unchanged, in any world, and it is
    neither [null] nor [undefined] unless the input was. *)
Definition revalidates (schema : Schema World) : Prop :=
  forall input w v w',
    safeParse schema input w = (Return (Success v), w') ->
    w' = w /\
    (forall w0, safeParse schema v w0 = (Return (Success v), w0)) /\
    (is_null input || is_undefined input = false ->
     is_null v || is_undefined v = false).

Definition fields_revalidate (shape : list (text * Schema World)) : Prop :=
  forall proto props w out w',
    fields_pass proto props shape w out w' ->
    w' = w /\
    (forall full w0,
        (forall key v, (key, v) ∈ out -> get_prop ProtoNull full key = v) ->
        fields_pass ProtoNull full shape w0 out w0).

End Sources.

(** The value a path leads to inside a value: an index into an array,
    within its bounds, a property of an object, read as [object] reads
    it. *)
Fixpoint locate (v : JsValue) (p : list PathSegment) : option JsValue :=
  match p with
  | [] => Some v
  | Index i :: p' =>
      match v with
      | JsArray elems =>
          match elems !! i with
          | Some x => locate x p'
          | None => None
          end
      | _ => None
      end
  | Key k :: p' =>
      match v with
      | JsObject proto props => locate (get_prop proto props k) p'
      | _ => None
      end
  end.

(** Every issue of a failure points into the input. *)
Definition issues_point_into (input : JsValue) (result : Result) : Prop :=
  match result with
  | Success _ => True
  | Failure issues =>
      Forall (fun issue =>
                exists v, locate input (default [] (path issue)) = Some v)
        issues
  end.

(** A hand-written schema that throws on [null] and accepts everything
    else as it is. *)
Definition fragile {World : Type} : Schema World :=
  createSchema (fun input =>
    if is_null input then throw (TypeError "null") else ret (Success input)).

(** ** [packages/crypto]: [hash.ts] and [generateSalt] of [utils.ts] *)

Module Crypto.

Import Stdlib.Init.Byte.

(** How a call ends: a function returns or throws, an [async] function
    resolves or rejects.  The only thing thrown here is an [Error] with a
    message. *)
Inductive Settled (A : Type) : Type :=
| Value (a : A)
| Error (reason : text).

Arguments Value {A} a.
Arguments Error {A} reason.

(** [await]: go on with the value, or reject with the same error. *)
Definition await {A B : Type} (p : Settled A) (k : A -> Settled B)
  : Settled B :=
  match p with
  | Value a => k a
  | Error reason => Error reason
  end.

(** The number a byte stands for, from [0] to [255]. *)
Definition byte_value (b : byte) : Z := Z.of_N (Stdlib.Strings.Byte.to_N b).

(** A [Uint8Array] is a list of bytes; [a[i]] is a number, and [undefined]
    past the end. *)
Definition element (a : list byte) (i : nat) : option Z :=
  option_map byte_value (a !! i).

(** [ToInt32], which the bitwise operators apply to their operands;
    [undefined] converts to [0]. *)
Definition ToInt32 (x : option Z) : Z :=
  match x with
  | Some z => ((z + 2 ^ 31) mod 2 ^ 32 - 2 ^ 31)%Z
  | None => 0%Z
  end.

(** [x ^ y] and [x | y] *)
Definition bitwise_xor (x y : option Z) : Z := Z.lxor (ToInt32 x) (ToInt32 y).

Definition bitwise_or (x y : option Z) : Z := Z.lor (ToInt32 x) (ToInt32 y).

(** The loop of [verify]: [i] is the loop counter, [remaining] is
    [newHashedPassword.length - i]. *)
Fixpoint compare_loop (newHashedPassword hashedPassword : list byte)
    (i remaining : nat) (result : Z) : Z :=
  match remaining with
  | O => result
  | S remaining' =>
      compare_loop newHashedPassword hashedPassword (S i) remaining'
        (bitwise_or (Some result)
           (Some (bitwise_xor (element newHashedPassword i)
                    (element hashedPassword i))))
  end.

(** The [length] argument of [generateSalt], a [number]: an integer, or
    [NaN].  Fractions and the infinities are left out. *)
Inductive Length : Type :=
| Integer (z : Z)
| NotANumber.

(** [new Uint8Array(length)]: [length] zero bytes. *)
Definition new_Uint8Array (length : Z) : list byte :=
  replicate (Z.to_nat length) x00.

Section Platform.

(** The platform: [PBKDF2 password salt iterations] stands for
    [TextEncoder.encode], [crypto.subtle.importKey] and
    [crypto.subtle.deriveBits] with PBKDF2, SHA-256 and 256 bits;
    [getRandomValues] for [crypto.getRandomValues], which draws on a source
    of entropy. *)
Variable PBKDF2 : text -> list byte -> Z -> Settled (list byte).

Variable Entropy : Type.

Variable getRandomValues : list byte -> Entropy -> Settled (list byte) * Entropy.

(** [hash] *)
Definition hash (password : text) (salt : list byte) (iterations : option Z)
  : Settled (list byte) :=
  let iterations := default 100000%Z iterations in
  if Nat.ltb (length salt) 16
  then Error "Salt must be at least 16 bytes long for security."
  else
    await (PBKDF2 password salt iterations) (fun hashedPassword =>
    Value hashedPassword).

(** [verify] *)
Definition verify (password : text) (hashedPassword salt : list byte)
    (iterations : option Z) : Settled bool :=
  let iterations := default 100000%Z iterations in
  await (hash password salt (Some iterations)) (fun newHashedPassword =>
  if negb (Nat.eqb (length newHashedPassword) (length hashedPassword))
  then Value false
  else
    let result :=
      compare_loop newHashedPassword hashedPassword 0
        (length newHashedPassword) 0 in
    Value (Z.eqb result 0)).

(** [generateSalt].  On an integer the test and the allocation are as
    written; [NaN < 16] is false and [new Uint8Array(NaN)] is the empty
    array. *)
Definition generateSalt (length : option Length) (entropy : Entropy)
  : Settled (list byte) * Entropy :=
  match default (Integer 16) length with
  | Integer length =>
      if Z.ltb length 16
      then (Error "Salt length must be at least 16 bytes for security.",
            entropy)
      else getRandomValues (new_Uint8Array length) entropy
  | NotANumber => getRandomValues (new_Uint8Array 0) entropy
  end.

End Platform.

(** A string as the platform sees it: its UTF-16 code units. *)
Definition CodeUnits : Type := list N.

(** [Uint8Array.from(s, (c) => c.charCodeAt(0))]: every code unit is
    stored modulo 256.  (What [atob] returns has no surrogate pair, so each
    code unit is a character of its own.) *)
Definition ToUint8 (unit : N) : byte :=
  default x00 (Stdlib.Strings.Byte.of_N (unit mod 256)).

Section Base64.

(** The platform: [btoa] and [atob], which may throw, and the number of
    arguments a call can take: spreading an array into more arguments than
    that is a [RangeError]. *)
Variable btoa : CodeUnits -> Settled CodeUnits.

Variable atob : CodeUnits -> Settled CodeUnits.

Variable max_arguments : nat.

(** [String.fromCharCode(...data)]: one code unit for each byte. *)
Definition String_fromCharCode (data : list byte) : Settled CodeUnits :=
  if Nat.ltb max_arguments (length data)
  then Error "RangeError: too many arguments"
  else Value (map Stdlib.Strings.Byte.to_N data).

(** [toBase64] *)
Definition toBase64 (data : list byte) : Settled CodeUnits :=
  await (String_fromCharCode data) (fun binary => btoa binary).

(** [fromBase64] *)
Definition fromBase64 (encoded : CodeUnits) : Settled (list byte) :=
  await (atob encoded) (fun binary => Value (map ToUint8 binary)).

End Base64.

(** A platform to run examples on: the derived bits are the bytes of the
    password, then of the salt, cut or padded to 32 bytes; the random bytes
    are all the same and the source of entropy counts the draws. *)
Definition toy_PBKDF2 (password : text) (salt : list byte) (iterations : Z)
  : Settled (list byte) :=
  Value (take 32 (list_byte_of_string password ++ salt ++ replicate 32 x00)).

Definition toy_getRandomValues (a : list byte) (entropy : nat)
  : Settled (list byte) * nat :=
  (Value (map (fun _ => x07) a), S entropy).

(** An encoding to run examples on: every code unit [u] below 256 becomes
    [u + 1], and back; other strings are refused. *)
Definition toy_btoa (binary : CodeUnits) : Settled CodeUnits :=
  if forallb (fun u => N.ltb u 256) binary
  then Value (map N.succ binary)
  else Error "InvalidCharacterError".

Definition toy_atob (encoded : CodeUnits) : Settled CodeUnits :=
  if forallb (fun u => N.ltb 0 u && N.leb u 256) encoded
  then Value (map N.pred encoded)
  else Error "InvalidCharacterError".

End Crypto.

(** * Properties *)

Section Theory.

Context {World : Type}.

Implicit Types (schema : Schema World) (w : World) (input : JsValue).
Implicit Types (message : option text) (issues : list Issue).

(** ** The validator abstraction *)

Lemma bind_ret {A B : Type} (a : A) (k : A -> M World B) w :
  bind (ret a) k w = k a w.
Proof. reflexivity. Qed.

Lemma bind_return {A B : Type} (c : M World A) (k : A -> M World B) w a w' :
  c w = (Return a, w') -> bind c k w = k a w'.
Proof. intros Hc. unfold bind. rewrite Hc. reflexivity. Qed.

Lemma bind_throw {A B : Type} (c : M World A) (k : A -> M World B) w e w' :
  c w = (Throw e, w') -> bind c k w = (Throw e, w').
Proof. intros Hc. unfold bind. rewrite Hc. reflexivity. Qed.

(** Every constructor of the API ends in [createSchema]. *)
Lemma api_schema_createSchema schema :
  api_schema schema -> schema = createSchema (safeParse schema).
Proof. intros H. destruct H; reflexivity. Qed.

Lemma parse_createSchema_success (f : JsValue -> M World Result) input w
    value w' :
  f input w = (Return (Success value), w') ->
  parse (createSchema f) input w = (Return value, w').
Proof. intros Hf. simpl. rewrite (bind_return _ _ _ _ _ Hf). reflexivity. Qed.

Lemma parse_createSchema_failure (f : JsValue -> M World Result) input w
    issues w' :
  f input w = (Return (Failure issues), w') ->
  parse (createSchema f) input w = (Throw (SchemaError issues), w').
Proof. intros Hf. simpl. rewrite (bind_return _ _ _ _ _ Hf). reflexivity. Qed.

Lemma parse_createSchema_throw (f : JsValue -> M World Result) input w e w' :
  f input w = (Throw e, w') ->
  parse (createSchema f) input w = (Throw e, w').
Proof. intros Hf. simpl. rewrite (bind_throw _ _ _ _ _ Hf). reflexivity. Qed.

(** C9.  For every schema the constructors of the API produce, the
    ["~standard"] marker has a [validate] that is [safeParse] on every
    input, the vendor ["razr"] and the version [1]. *)
Theorem standard_marker schema :
  api_schema schema ->
  (forall input, validate (standard schema) input = safeParse schema input) /\
  vendor (standard schema) = "razr" /\
  version (standard schema) = 1%Z.
Proof.
  intros H. rewrite (api_schema_createSchema schema H). simpl.
  repeat split.
Qed.

(** ** [maybe] and [defaulted] *)

Lemma absent_cases input :
  is_null input || is_undefined input = true <->
  input = JsNull \/ input = JsUndefined.
Proof.
  destruct input; simpl; split; intros H; try discriminate; auto;
    destruct H as [H | H]; discriminate H.
Qed.

Lemma present_cases input :
  is_null input || is_undefined input = false <->
  input <> JsNull /\ input <> JsUndefined.
Proof.
  destruct input; simpl; split; intros H; try discriminate; auto;
    try (split; discriminate); destruct H as [H1 H2]; congruence.
Qed.

Lemma maybe_present schema input :
  is_null input || is_undefined input = false ->
  safeParse (maybe schema) input = safeParse schema input.
Proof. intros H. simpl. rewrite H. reflexivity. Qed.

Lemma defaulted_present schema defaultValue input :
  is_null input || is_undefined input = false ->
  safeParse (defaulted schema defaultValue) input = safeParse schema input.
Proof. intros H. simpl. rewrite H. reflexivity. Qed.

(** C7.  On [null] and on [undefined], [maybe(s)] succeeds with
    [undefined] and [defaulted(s, d)] succeeds with [d]; on every other
    input both are [s.safeParse] on that input, result and effects
    alike. *)
Theorem maybe_defaulted_spec schema (defaultValue : JsValue) :
  safeParse (maybe schema) JsNull = ret (Success JsUndefined) /\
  safeParse (maybe schema) JsUndefined = ret (Success JsUndefined) /\
  safeParse (defaulted schema defaultValue) JsNull = ret (Success defaultValue) /\
  safeParse (defaulted schema defaultValue) JsUndefined
    = ret (Success defaultValue) /\
  (forall input, input <> JsNull -> input <> JsUndefined ->
     safeParse (maybe schema) input = safeParse schema input /\
     safeParse (defaulted schema defaultValue) input = safeParse schema input).
Proof.
  repeat split; try reflexivity.
  - apply maybe_present, present_cases; auto.
  - apply defaulted_present, present_cases; auto.
Qed.

(** ** Primitive validators *)

Lemma with_default_some (d m : text) : with_default d (Some m) = m.
Proof. reflexivity. Qed.

Lemma with_default_none (d : text) : with_default d None = d.
Proof. reflexivity. Qed.

Lemma string_spec message input :
  safeParse (string message) input
  = ret (World := World)
      (if decide (typeof input = "string") then Success input
       else single_issue (with_default "Expected string" message)).
Proof. destruct input; reflexivity. Qed.

Lemma boolean_spec message input :
  safeParse (boolean message) input
  = ret (World := World)
      (if decide (typeof input = "boolean") then Success input
       else single_issue (with_default "Expected boolean" message)).
Proof. destruct input; reflexivity. Qed.

Lemma number_spec message input :
  safeParse (number message) input
  = ret (World := World)
      (if decide (typeof input = "number" /\ Number_isFinite input = true)
       then Success input
       else single_issue (with_default "Expected number" message)).
Proof.
  destruct input as [| | | n | | | | | |]; try reflexivity.
  cbn [safeParse number createSchema typeof Number_isFinite].
  destruct (decide _) as [[_ E] | N].
  - rewrite E. reflexivity.
  - destruct (negb (is_nan n) && negb (is_infinity n)) eqn:E; [| reflexivity].
    exfalso. apply N. split; reflexivity.
Qed.


(** ** [literal] *)






(** ** Plain data objects *)

Lemma bind_inv {A B : Type} (c : M World A) (k : A -> M World B) w b w' :
  bind c k w = (Return b, w') ->
  exists a w1, c w = (Return a, w1) /\ k a w1 = (Return b, w').
Proof.
  unfold bind. destruct (c w) as [[a | e] w1]; intros H.
  - exists a, w1. split; [reflexivity | exact H].
  - discriminate H.
Qed.

Lemma isObject_plain proto props w :
  plain_proto proto -> isObject (JsObject proto props) w = (Return true, w).
Proof. intros [-> | ->]; reflexivity. Qed.

Lemma isObject_not_plain input w :
  not_plain_data_object World input -> isObject input w = (Return false, w).
Proof.
  intros [-> | [-> | (proto & Hproto & Hnull & Hobj)]]; try reflexivity.
  destruct input as [| | | | | | | | | p props]; try reflexivity.
  specialize (Hproto w). injection Hproto as E. subst p.
  destruct proto; [contradiction | contradiction | reflexivity].
Qed.

Lemma plain_or_not input :
  (exists proto props, input = JsObject proto props /\ plain_proto proto) \/
  not_plain_data_object World input.
Proof.
  destruct input as [| | | | | | | | | proto props];
    try (right; right; right;
         eexists; split; [intros w; reflexivity | split; discriminate]).
  - right. right. left. reflexivity.
  - right. left. reflexivity.
  - destruct proto.
    + left. exists ProtoNull, props. split; [reflexivity | left; reflexivity].
    + left. exists ProtoObject, props. split; [reflexivity | right; reflexivity].
    + right. right. right. exists (ProtoOther name).
      split; [intros w; reflexivity | split; discriminate].
Qed.

Lemma object_plain shape message proto props w :
  plain_proto proto ->
  safeParse (object shape message) (JsObject proto props) w
  = object_loop shape (JsObject proto props) [] w.
Proof.
  intros H. cbn [safeParse object schema_of createSchema].
  rewrite (bind_return _ _ _ _ _ (isObject_plain proto props w H)).
  reflexivity.
Qed.

Lemma object_not_plain shape message input w :
  not_plain_data_object World input ->
  safeParse (object shape message) input w
  = (Return (single_issue (with_default "Expected object" message)), w).
Proof.
  intros H. cbn [safeParse object schema_of createSchema].
  rewrite (bind_return _ _ _ _ _ (isObject_not_plain input w H)).
  reflexivity.
Qed.




(** ** The loop of [array] *)

Lemma prependKeyToIssues_nonempty key issues :
  issues <> [] -> prependKeyToIssues key issues <> [].
Proof. destruct issues; [congruence | discriminate]. Qed.

Lemma prependKeyToIssues_length key issues :
  length (prependKeyToIssues key issues) = length issues.
Proof. apply length_map. Qed.

Lemma array_get_middle (done rest : list JsValue) x :
  array_get (done ++ x :: rest) (length done) = x.
Proof. unfold array_get. rewrite list_lookup_middle; reflexivity. Qed.

Lemma elements_pass_length schema xs w vs w' :
  elements_pass schema xs w vs w' -> length vs = length xs.
Proof. induction 1; simpl; congruence. Qed.

(** One turn of the loop on an element the child accepts. *)
Lemma array_loop_step schema (done rest : list JsValue) x value w v w1 :
  safeParse schema x w = (Return (Success v), w1) ->
  array_loop schema (done ++ x :: rest) (length done) (S (length rest)) value w
  = array_loop schema ((done ++ [x]) ++ rest) (length (done ++ [x]))
      (length rest) (array_set value (length done) v) w1.
Proof.
  intros Hx. cbn [array_loop]. rewrite array_get_middle.
  rewrite (bind_return _ _ _ _ _ Hx).
  rewrite <- app_assoc, length_app. simpl.
  rewrite Nat.add_1_r. reflexivity.
Qed.

Lemma array_set_next_slot (vs : list JsValue) v n :
  array_set (vs ++ replicate (S n) JsUndefined) (length vs) v
  = (vs ++ [v]) ++ replicate n JsUndefined.
Proof.
  unfold array_set.
  destruct (Nat.ltb_spec (length vs)
              (length (vs ++ replicate (S n) JsUndefined))) as [_ | H].
  - rewrite insert_app_r_alt by lia. rewrite Nat.sub_diag.
    rewrite <- app_assoc. reflexivity.
  - rewrite length_app, length_replicate in H. lia.
Qed.

(** The loop, started after [done] with the values [vs] in place, on
    elements the child accepts one after the other. *)
Lemma array_loop_pass schema rest :
  forall done vs w out w',
    elements_pass schema rest w out w' ->
    length vs = length done ->
    array_loop schema (done ++ rest) (length done) (length rest)
      (vs ++ replicate (length rest) JsUndefined) w
    = (Return (Success (JsArray (vs ++ out))), w').
Proof.
  induction rest as [| x rest IH]; intros done vs w out w' Hpass Hlen;
    inversion Hpass as [| ? ? ? v w1 out' ? Hx Hrest]; subst.
  - simpl. rewrite !app_nil_r. reflexivity.
  - cbn [length]. rewrite (array_loop_step _ _ _ _ _ _ _ _ Hx).
    rewrite <- Hlen, array_set_next_slot.
    rewrite (IH (done ++ [x]) (vs ++ [v]) w1 out' w' Hrest).
    + rewrite <- app_assoc. reflexivity.
    + rewrite !length_app. simpl. lia.
Qed.

(** The loop on elements the child accepts, followed by one it refuses:
    whatever comes after is not looked at. *)
Lemma array_loop_fail schema before :
  forall done vs x after w out w1 issues w2,
    elements_pass schema before w out w1 ->
    safeParse schema x w1 = (Return (Failure issues), w2) ->
    length vs = length done ->
    array_loop schema (done ++ before ++ x :: after) (length done)
      (length (before ++ x :: after))
      (vs ++ replicate (length (before ++ x :: after)) JsUndefined) w
    = (Return (Failure
         (prependKeyToIssues (Index (length done + length before)) issues)), w2).
Proof.
  induction before as [| y before IH];
    intros done vs x after w out w1 issues w2 Hpass Hx Hlen;
    inversion Hpass as [| ? ? ? v w' out' ? Hy Hrest]; subst.
  - simpl. rewrite array_get_middle.
    rewrite (bind_return _ _ _ _ _ Hx). rewrite Nat.add_0_r. reflexivity.
  - cbn [app length]. rewrite (array_loop_step _ _ _ _ _ _ _ _ Hy).
    rewrite <- Hlen, array_set_next_slot.
    rewrite (IH (done ++ [y]) (vs ++ [v]) x after w' out' w1 issues w2 Hrest Hx).
    + rewrite length_app. simpl.
      replace (length done + 1 + length before)
        with (length vs + S (length before)) by lia.
      reflexivity.
    + rewrite !length_app. simpl. lia.
Qed.

Lemma array_not_array schema message input w :
  Array_isArray input = false ->
  safeParse (array schema message) input w
  = (Return (single_issue (with_default "Expected array" message)), w).
Proof. destruct input; intros H; try reflexivity. discriminate H. Qed.

Lemma array_pass schema message elems w vs w' :
  elements_pass schema elems w vs w' ->
  safeParse (array schema message) (JsArray elems) w
  = (Return (Success (JsArray vs)), w').
Proof.
  intros H. cbn [safeParse array createSchema].
  exact (array_loop_pass schema elems [] [] w vs w' H eq_refl).
Qed.

Lemma array_fail schema message before x after w vs w1 issues w2 :
  elements_pass schema before w vs w1 ->
  safeParse schema x w1 = (Return (Failure issues), w2) ->
  safeParse (array schema message) (JsArray (before ++ x :: after)) w
  = (Return (Failure (prependKeyToIssues (Index (length before)) issues)), w2).
Proof.
  intros Hpass Hx. cbn [safeParse array createSchema].
  exact (array_loop_fail schema before [] [] x after w vs w1 issues w2
           Hpass Hx eq_refl).
Qed.

(** What a run of the child over the elements can be: every element
    passes, or there is a first element the child refuses, or a first
    element on which the child throws. *)
Lemma elements_cases schema elems :
  forall w,
    (exists vs w', elements_pass schema elems w vs w') \/
    (exists before x after vs w1 issues w2,
        elems = before ++ x :: after /\
        elements_pass schema before w vs w1 /\
        safeParse schema x w1 = (Return (Failure issues), w2)) \/
    (exists before x after vs w1 e w2,
        elems = before ++ x :: after /\
        elements_pass schema before w vs w1 /\
        safeParse schema x w1 = (Throw e, w2)).
Proof.
  induction elems as [| x elems IH]; intros w.
  - left. exists [], w. constructor.
  - destruct (safeParse schema x w) as [[[v | issues] | e] w1] eqn:Hx.
    + destruct (IH w1) as [(vs & w' & H) | [H | H]].
      * left. exists (v :: vs), w'. econstructor; eauto.
      * right. left.
        destruct H as (before & y & after & vs & w2 & issues & w3 & -> & Hp & Hy).
        exists (x :: before), y, after, (v :: vs), w2, issues, w3.
        split; [reflexivity | split; [econstructor; eauto | exact Hy]].
      * right. right.
        destruct H as (before & y & after & vs & w2 & e & w3 & -> & Hp & Hy).
        exists (x :: before), y, after, (v :: vs), w2, e, w3.
        split; [reflexivity | split; [econstructor; eauto | exact Hy]].
    + right. left. exists [], x, elems, [], w, issues, w1.
      split; [reflexivity | split; [constructor | exact Hx]].
    + right. right. exists [], x, elems, [], w, e, w1.
      split; [reflexivity | split; [constructor | exact Hx]].
Qed.

(** ** The loop of [object] *)

Lemma object_loop_step schema key shape proto props value w v w1 :
  safeParse schema (get_prop proto props key) w = (Return (Success v), w1) ->
  object_loop ((key, schema) :: shape) (JsObject proto props) value w
  = object_loop shape (JsObject proto props) (set_prop value key v) w1.
Proof.
  intros Hx. cbn [object_loop Get]. rewrite bind_ret.
  rewrite (bind_return _ _ _ _ _ Hx). reflexivity.
Qed.

Lemma object_loop_pass proto props shape :
  forall value w out w',
    fields_pass proto props shape w out w' ->
    object_loop shape (JsObject proto props) value w
    = (Return (Success (JsObject ProtoNull (assign_fields value out))), w').
Proof.
  induction shape as [| [key schema] shape IH]; intros value w out w' Hpass;
    inversion Hpass as [| ? ? ? ? v w1 out' ? Hx Hrest]; subst.
  - reflexivity.
  - rewrite (object_loop_step _ _ _ _ _ _ _ _ _ Hx).
    rewrite (IH _ _ _ _ Hrest). reflexivity.
Qed.

Lemma object_loop_fail proto props fields :
  forall key schema later value w out w1 issues w2,
    fields_pass proto props fields w out w1 ->
    safeParse schema (get_prop proto props key) w1 = (Return (Failure issues), w2) ->
    object_loop (fields ++ (key, schema) :: later) (JsObject proto props) value w
    = (Return (Failure (prependKeyToIssues (Key key) issues)), w2).
Proof.
  induction fields as [| [k s] fields IH];
    intros key schema later value w out w1 issues w2 Hpass Hx;
    inversion Hpass as [| ? ? ? ? v w' out' ? Hk Hrest]; subst.
  - cbn [app object_loop Get]. rewrite bind_ret.
    rewrite (bind_return _ _ _ _ _ Hx). reflexivity.
  - cbn [app]. rewrite (object_loop_step _ _ _ _ _ _ _ _ _ Hk).
    exact (IH _ _ _ _ _ _ _ _ _ Hrest Hx).
Qed.

Lemma fields_pass_keys proto props shape w out w' :
  fields_pass proto props shape w out w' -> map fst out = map fst shape.
Proof. induction 1; simpl; congruence. Qed.

Lemma own_property_absent (props : list (text * JsValue)) key :
  key ∉ map fst props -> own_property props key = None.
Proof.
  induction props as [| [k v] props IH]; simpl; intros H; [reflexivity |].
  apply not_elem_of_cons in H. destruct H as [Hk H].
  destruct (String.eqb_spec k key) as [-> | _]; [contradiction | exact (IH H)].
Qed.

Lemma get_prop_absent proto (props : list (text * JsValue)) key :
  key ∉ map fst props ->
  inherited_property proto key = None ->
  get_prop proto props key = JsUndefined.
Proof.
  intros H Hproto. unfold get_prop.
  rewrite own_property_absent, Hproto; auto.
Qed.

Lemma get_prop_own proto (props : list (text * JsValue)) key v :
  own_property props key = Some v -> get_prop proto props key = v.
Proof. intros H. unfold get_prop. rewrite H. reflexivity. Qed.

Lemma own_property_present (props : list (text * JsValue)) key :
  own_property props key = None -> key ∉ map fst props.
Proof.
  induction props as [| [k v] props IH]; simpl; intros H.
  - apply not_elem_of_nil.
  - destruct (String.eqb_spec k key) as [-> | Hk]; [discriminate H |].
    apply not_elem_of_cons. split; [congruence | exact (IH H)].
Qed.

(** What a plain object inherits: nothing under a [null] prototype; under
    [Object.prototype], [__proto__] and the members of [Object_prototype]. *)
Lemma inherited_property_none proto key :
  plain_proto proto ->
  inherited_property proto key = None <->
  proto = ProtoNull \/ (key <> "__proto__" /\ key ∉ map fst Object_prototype).
Proof.
  intros [-> | ->]; cbn [inherited_property].
  - split; auto.
  - destruct (String.eqb_spec key "__proto__") as [-> | Hkey].
    + split; [discriminate |].
      intros [H | [H _]]; [discriminate H | contradiction].
    + split.
      * intros H. right. split; [exact Hkey |].
        apply own_property_present, H.
      * intros [H | [_ H]]; [discriminate H |].
        apply own_property_absent, H.
Qed.

Lemma set_prop_fresh (value : list (text * JsValue)) key v :
  key ∉ map fst value -> set_prop value key v = value ++ [(key, v)].
Proof.
  induction value as [| [k x] value IH]; simpl; intros H; [reflexivity |].
  apply not_elem_of_cons in H. destruct H as [Hk H].
  destruct (String.eqb_spec k key) as [-> | _]; [contradiction |].
  rewrite (IH H). reflexivity.
Qed.

(** Assigning fields with pairwise distinct, new names appends them. *)
Lemma assign_fields_fresh (out : list (text * JsValue)) :
  forall value, NoDup (map fst (value ++ out)) ->
                assign_fields value out = value ++ out.
Proof.
  induction out as [| [k v] out IH]; intros value H.
  - simpl. rewrite app_nil_r. reflexivity.
  - cbn [assign_fields foldl fst snd].
    change (assign_fields (set_prop value k v) out = value ++ (k, v) :: out).
    rewrite set_prop_fresh.
    + rewrite IH; rewrite <- app_assoc; [reflexivity | exact H].
    + rewrite map_app in H. simpl in H.
      apply list.NoDup_app in H. destruct H as (_ & Hdisj & _).
      intros Hin. apply (Hdisj k Hin). left.
Qed.

Lemma own_property_bound (out : list (text * JsValue)) key v :
  NoDup (map fst out) -> (key, v) ∈ out -> own_property out key = Some v.
Proof.
  induction out as [| [k x] out IH]; simpl; intros Hnd Hin.
  - inversion Hin.
  - apply list.NoDup_cons in Hnd. destruct Hnd as [Hk Hnd].
    apply elem_of_cons in Hin. destruct Hin as [E | Hin].
    + injection E as -> ->. rewrite String.eqb_refl. reflexivity.
    + destruct (String.eqb_spec k key) as [-> | _]; [| exact (IH Hnd Hin)].
      exfalso. apply Hk.
      apply list_elem_of_In, in_map_iff. exists (key, v).
      split; [reflexivity | apply list_elem_of_In, Hin].
Qed.

(** ** Schemas of the API never throw *)

Lemma array_loop_total schema :
  returns_result schema ->
  forall remaining (elems : list JsValue) i value w,
    exists result,
      array_loop schema elems i remaining value w = (Return result, w) /\
      well_formed result.
Proof.
  intros Hchild. induction remaining as [| remaining IH]; intros elems i value w.
  - eexists. split; [reflexivity | exact I].
  - cbn [array_loop].
    destruct (Hchild (array_get elems i) w) as ([v | issues] & Hr & Hwf);
      rewrite (bind_return _ _ _ _ _ Hr).
    + apply IH.
    + eexists. split; [reflexivity |].
      apply prependKeyToIssues_nonempty, Hwf.
Qed.

Lemma single_issue_well_formed (m : text) : well_formed (single_issue m).
Proof. discriminate. Qed.

Lemma api_total_mut :
  (forall schema, api_schema schema -> returns_result schema) /\
  (forall shape, api_shape (World := World) shape -> fields_return_result shape).
Proof.
  apply api_mutind.
  - intros message input w. rewrite string_spec. eexists.
    split; [reflexivity |].
    destruct (decide _); [exact I | apply single_issue_well_formed].
  - intros message input w. rewrite number_spec. eexists.
    split; [reflexivity |].
    destruct (decide _); [exact I | apply single_issue_well_formed].
  - intros message input w. rewrite boolean_spec. eexists.
    split; [reflexivity |].
    destruct (decide _); [exact I | apply single_issue_well_formed].
  - intros value message input w. cbn [safeParse literal createSchema].
    destruct (strict_equals input value); eexists;
      (split; [reflexivity |]); [exact I | apply single_issue_well_formed].
  - intros schema message _ IH input w.
    destruct (Array_isArray input) eqn:E.
    + destruct input; try discriminate E. cbn [safeParse array createSchema].
      apply array_loop_total, IH.
    + rewrite (array_not_array _ _ _ _ E). eexists.
      split; [reflexivity | apply single_issue_well_formed].
  - intros shape message _ IH input w.
    destruct (plain_or_not input) as [(proto & props & -> & Hp) | Hn].
    + rewrite (object_plain _ _ _ _ _ Hp). apply IH.
    + rewrite (object_not_plain _ _ _ _ Hn). eexists.
      split; [reflexivity | apply single_issue_well_formed].
  - intros schema _ IH input w. cbn [safeParse maybe createSchema].
    destruct (is_null input || is_undefined input).
    + eexists. split; [reflexivity | exact I].
    + apply IH.
  - intros schema defaultValue _ IH input w.
    cbn [safeParse defaulted createSchema].
    destruct (is_null input || is_undefined input).
    + eexists. split; [reflexivity | exact I].
    + apply IH.
  - intros proto props value w. eexists. split; [reflexivity | exact I].
  - intros key schema shape _ IHs _ IHshape proto props value w.
    cbn [object_loop Get]. rewrite bind_ret.
    destruct (IHs (get_prop proto props key) w) as ([v | issues] & Hr & Hwf);
      rewrite (bind_return _ _ _ _ _ Hr).
    + apply IHshape.
    + eexists. split; [reflexivity |].
      apply prependKeyToIssues_nonempty, Hwf.
Qed.

(** ** Paths *)

Lemma path_under_nil issues : map (path_under []) issues = issues.
Proof. induction issues as [| issue issues IH]; simpl; congruence. Qed.

(** One more enclosing combinator puts its segment in front. *)
Lemma prependKeyToIssues_path_under key segs issues :
  prependKeyToIssues key (map (path_under segs) issues)
  = map (path_under (key :: segs)) issues.
Proof.
  unfold prependKeyToIssues. rewrite map_map. apply map_ext. intros issue.
  destruct segs as [| seg segs]; simpl; [| reflexivity].
  destruct (path issue); reflexivity.
Qed.

Lemma fails_inside_safeParse schema input w segs issues w' :
  fails_inside schema input w segs issues w' ->
  safeParse schema input w
  = (Return (Failure (map (path_under segs) issues)), w').
Proof.
  induction 1 as
    [ schema input w issues w' H
    | schema message before x after w vs w1 segs issues w2 Hpass _ IH
    | fields key schema later message proto props w out w1 segs issues w2
        Hp Hpass _ IH
    | schema input w segs issues w' Hpresent _ IH
    | schema defaultValue input w segs issues w' Hpresent _ IH ].
  - rewrite path_under_nil. exact H.
  - rewrite (array_fail _ message _ _ after _ _ _ _ _ Hpass IH).
    rewrite prependKeyToIssues_path_under. reflexivity.
  - rewrite (object_plain _ _ _ _ _ Hp).
    rewrite (object_loop_fail _ _ _ _ _ later [] _ _ _ _ _ Hpass IH).
    rewrite prependKeyToIssues_path_under. reflexivity.
  - rewrite (maybe_present _ _ Hpresent). exact IH.
  - rewrite (defaulted_present _ _ _ Hpresent). exact IH.
Qed.

(** C1.  On a schema built from the construction API, [safeParse] never
    throws: on every input it returns a success or a list of at least one
    issue (and leaves the world untouched).  [parse] returns the value of
    that success, and otherwise throws a [SchemaError] that carries the list
    of issues [safeParse] returned, as it is. *)
Theorem safeParse_never_throws schema :
  api_schema schema ->
  forall input w,
    (exists result,
        safeParse schema input w = (Return result, w) /\
        well_formed result) /\
    (forall value w',
        safeParse schema input w = (Return (Success value), w') ->
        parse schema input w = (Return value, w')) /\
    (forall issues w',
        safeParse schema input w = (Return (Failure issues), w') ->
        parse schema input w = (Throw (SchemaError issues), w')).
Proof.
  intros Hapi input w. split; [| split].
  - exact (proj1 api_total_mut schema Hapi input w).
  - intros value w' H. rewrite (api_schema_createSchema schema Hapi).
    apply parse_createSchema_success. exact H.
  - intros issues w' H. rewrite (api_schema_createSchema schema Hapi).
    apply parse_createSchema_failure. exact H.
Qed.

Lemma fields_cases proto (props : list (text * JsValue))
    (shape : list (text * Schema World)) :
  forall w,
    (exists out w', fields_pass proto props shape w out w') \/
    (exists fields key schema later out w1 issues w2,
        shape = fields ++ (key, schema) :: later /\
        fields_pass proto props fields w out w1 /\
        safeParse schema (get_prop proto props key) w1
        = (Return (Failure issues), w2)) \/
    (exists fields key schema later out w1 e w2,
        shape = fields ++ (key, schema) :: later /\
        fields_pass proto props fields w out w1 /\
        safeParse schema (get_prop proto props key) w1 = (Throw e, w2)).
Proof.
  induction shape as [| [k s] shape IH]; intros w.
  - left. exists [], w. constructor.
  - destruct (safeParse s (get_prop proto props k) w)
      as [[[v | issues] | e] w1] eqn:Hk.
    + destruct (IH w1) as [(out & w' & H) | [H | H]].
      * left. exists ((k, v) :: out), w'. econstructor; eauto.
      * right. left.
        destruct H as (fields & key & schema & later & out & w2 & issues & w3
                       & -> & Hp & Hy).
        exists ((k, s) :: fields), key, schema, later, ((k, v) :: out), w2,
          issues, w3.
        split; [reflexivity | split; [econstructor; eauto | exact Hy]].
      * right. right.
        destruct H as (fields & key & schema & later & out & w2 & e & w3
                       & -> & Hp & Hy).
        exists ((k, s) :: fields), key, schema, later, ((k, v) :: out), w2,
          e, w3.
        split; [reflexivity | split; [econstructor; eauto | exact Hy]].
    + right. left. exists [], k, s, shape, [], w, issues, w1.
      split; [reflexivity | split; [constructor | exact Hk]].
    + right. right. exists [], k, s, shape, [], w, e, w1.
      split; [reflexivity | split; [constructor | exact Hk]].
Qed.

Lemma object_pass shape message proto props w out w' :
  plain_proto proto ->
  NoDup (map fst shape) ->
  fields_pass proto props shape w out w' ->
  safeParse (object shape message) (JsObject proto props) w
  = (Return (Success (JsObject ProtoNull out)), w').
Proof.
  intros Hp Hnd Hpass. rewrite (object_plain _ _ _ _ _ Hp).
  rewrite (object_loop_pass _ _ _ _ _ _ _ Hpass).
  rewrite assign_fields_fresh; [reflexivity |].
  simpl. rewrite (fields_pass_keys _ _ _ _ _ _ Hpass). exact Hnd.
Qed.

Lemma object_fail fields key schema later message proto props w out w1
    issues w2 :
  plain_proto proto ->
  fields_pass proto props fields w out w1 ->
  safeParse schema (get_prop proto props key) w1 = (Return (Failure issues), w2) ->
  safeParse (object (fields ++ (key, schema) :: later) message)
    (JsObject proto props) w
  = (Return (Failure (prependKeyToIssues (Key key) issues)), w2).
Proof.
  intros Hp Hpass Hx. rewrite (object_plain _ _ _ _ _ Hp).
  exact (object_loop_fail _ _ _ _ _ later [] _ _ _ _ _ Hpass Hx).
Qed.

End Theory.

(** ** Observing the calls *)

Lemma observed_call schema x calls :
  observed schema ->
  exists result, safeParse schema x calls = (Return result, calls ++ [x]).
Proof.
  intros (inner & -> & Hpure).
  destruct (Hpure x (calls ++ [x])) as (result & H & _).
  exists result. exact H.
Qed.

Lemma observed_elements_pass schema xs calls vs calls' :
  observed schema ->
  elements_pass schema xs calls vs calls' -> calls' = calls ++ xs.
Proof.
  intros Hobs Hpass.
  induction Hpass as [w | x xs w v w1 vs w2 Hx _ IH].
  - rewrite app_nil_r. reflexivity.
  - destruct (observed_call schema x w Hobs) as (result & Hcall).
    rewrite Hcall in Hx. injection Hx as _ <-.
    rewrite IH, <- app_assoc. reflexivity.
Qed.

Lemma observed_fields_pass proto props shape calls out calls' :
  Forall (fun field => observed (snd field)) shape ->
  fields_pass proto props shape calls out calls' ->
  calls' = calls ++ map (fun field => get_prop proto props (fst field)) shape.
Proof.
  intros Hobs Hpass.
  induction Hpass as [w | key schema shape w v w1 out w2 Hx _ IH].
  - rewrite app_nil_r. reflexivity.
  - apply list.Forall_cons in Hobs. destruct Hobs as [Hschema Hobs].
    destruct (observed_call schema (get_prop proto props key) w Hschema)
      as (result & Hcall).
    simpl in Hcall. rewrite Hcall in Hx. injection Hx as _ <-.
    rewrite (IH Hobs). simpl. rewrite <- app_assoc. reflexivity.
Qed.

(** Under observation, [array] calls its child on the elements up to the
    first one refused, in order, and on nothing else. *)
Lemma array_calls schema message elems calls :
  observed schema ->
  (exists vs,
      safeParse (array schema message) (JsArray elems) calls
      = (Return (Success (JsArray vs)), calls ++ elems)) \/
  (exists before x after issues,
      elems = before ++ x :: after /\
      safeParse (array schema message) (JsArray elems) calls
      = (Return (Failure (prependKeyToIssues (Index (length before)) issues)),
         calls ++ before ++ [x])).
Proof.
  intros Hobs.
  destruct (elements_cases schema elems calls)
    as [(vs & w' & Hpass) | [H | H]].
  - left. exists vs. rewrite (array_pass _ message _ _ _ _ Hpass).
    rewrite (observed_elements_pass _ _ _ _ _ Hobs Hpass). reflexivity.
  - right.
    destruct H as (before & x & after & vs & w1 & issues & w2 & -> & Hpass & Hx).
    exists before, x, after, issues. split; [reflexivity |].
    rewrite (array_fail _ message _ _ after _ _ _ _ _ Hpass Hx).
    destruct (observed_call schema x w1 Hobs) as (result & Hcall).
    rewrite Hcall in Hx. injection Hx as _ <-.
    rewrite (observed_elements_pass _ _ _ _ _ Hobs Hpass), <- app_assoc.
    reflexivity.
  - exfalso.
    destruct H as (before & x & after & vs & w1 & e & w2 & _ & _ & Hx).
    destruct (observed_call schema x w1 Hobs) as (result & Hcall).
    rewrite Hcall in Hx. discriminate Hx.
Qed.

(** Under observation, [object] calls the validators of the fields up to
    the first one that refuses, in the order of the shape, each on the
    property of its name, and no other. *)
Lemma object_calls shape message proto props calls :
  plain_proto proto ->
  Forall (fun field => observed (snd field)) shape ->
  (exists out,
      safeParse (object shape message) (JsObject proto props) calls
      = (Return (Success (JsObject ProtoNull (assign_fields [] out))),
         calls ++ map (fun field => get_prop proto props (fst field)) shape)) \/
  (exists fields key schema later issues,
      shape = fields ++ (key, schema) :: later /\
      safeParse (object shape message) (JsObject proto props) calls
      = (Return (Failure (prependKeyToIssues (Key key) issues)),
         calls ++ map (fun field => get_prop proto props (fst field)) fields
               ++ [get_prop proto props key])).
Proof.
  intros Hp Hobs.
  destruct (fields_cases proto props shape calls) as [(out & w' & Hpass) | [H | H]].
  - left. exists out. rewrite (object_plain _ _ _ _ _ Hp).
    rewrite (object_loop_pass _ _ _ _ _ _ _ Hpass).
    rewrite (observed_fields_pass _ _ _ _ _ _ Hobs Hpass). reflexivity.
  - right.
    destruct H as (fields & key & schema & later & out & w1 & issues & w2
                   & -> & Hpass & Hx).
    exists fields, key, schema, later, issues. split; [reflexivity |].
    rewrite (object_fail _ _ _ later message _ _ _ _ _ _ _ Hp Hpass Hx).
    apply list.Forall_app in Hobs. destruct Hobs as [Hfields Hrest].
    apply list.Forall_cons in Hrest. destruct Hrest as [Hschema _].
    destruct (observed_call schema (get_prop proto props key) w1 Hschema)
      as (result & Hcall).
    simpl in Hcall. rewrite Hcall in Hx. injection Hx as _ <-.
    rewrite (observed_fields_pass _ _ _ _ _ _ Hfields Hpass), <- app_assoc.
    reflexivity.
  - exfalso.
    destruct H as (fields & key & schema & later & out & w1 & e & w2
                   & -> & Hpass & Hx).
    apply list.Forall_app in Hobs. destruct Hobs as [_ Hrest].
    apply list.Forall_cons in Hrest. destruct Hrest as [Hschema _].
    destruct (observed_call schema (get_prop proto props key) w1 Hschema)
      as (result & Hcall).
    simpl in Hcall. rewrite Hcall in Hx. discriminate Hx.
Qed.

(** ** The combinators *)

(** C2.  Through any nesting of [array] and [object] (with [maybe] and
    [defaulted] in between), the issues of an inner validator reach the
    outermost [safeParse] with the segment of every enclosing combinator in
    front of their path, outermost first: the path reads from the root to
    the leaf.  [array(object({ age: number() }))] on
    [[{ age: 1 }, { age: "x" }]] gives one issue, of path [[1, "age"]]. *)
Theorem paths_read_root_to_leaf :
  (forall World (schema : Schema World) input w segs issues w',
      fails_inside schema input w segs issues w' ->
      safeParse schema input w
      = (Return (Failure (map (path_under segs) issues)), w')) /\
  (forall seg segs issue,
      path_under (seg :: segs) issue
      = {| message := message issue;
           path := Some (seg :: segs ++ default [] (path issue)) |}) /\
  (forall key issues,
      prependKeyToIssues key issues
      = map (fun issue =>
               {| message := message issue;
                  path := Some (key :: default [] (path issue)) |}) issues) /\
  safeParse (array (object [("age", number None)] None) None)
    (JsArray [JsObject ProtoObject [("age", JsNumber 1)];
              JsObject ProtoObject [("age", JsString "x")]]) tt
  = (Return (Failure [{| message := "Expected number";
                         path := Some [Index 1; Key "age"] |}]), tt).
Proof.
  split; [| split; [| split]].
  - intros World schema input w segs issues w'. apply fails_inside_safeParse.
  - reflexivity.
  - intros key issues. unfold prependKeyToIssues. apply map_ext.
    intros issue. destruct (path issue); reflexivity.
  - reflexivity.
Qed.

(** C3.  [array(s)] answers an input that is not an array with a single
    issue that has no path.  On an array it runs [s] on the elements in
    index order.  At the first index [i] whose element [s] refuses, it
    returns the issues of [s] with [i] put in front of each path, and [s] is
    not called on any later element; when [s] accepts every element, the
    result is a new array of the same length that holds the values [s]
    returned, in order.  [array(number())] on [[1, "x", 3]] gives the one
    issue [{ message: "Expected number", path: [1] }] and never looks at
    index 2. *)
Theorem array_spec :
  (forall World (schema : Schema World) message input w,
      Array_isArray input = false ->
      safeParse (array schema message) input w
      = (Return (single_issue (match message with
                               | Some m => m
                               | None => "Expected array"
                               end)), w)) /\
  (forall World (schema : Schema World) message before x after w vs w1
          issues w2,
      elements_pass schema before w vs w1 ->
      safeParse schema x w1 = (Return (Failure issues), w2) ->
      safeParse (array schema message) (JsArray (before ++ x :: after)) w
      = (Return (Failure (prependKeyToIssues (Index (length before)) issues)),
         w2)) /\
  (forall key issues,
      prependKeyToIssues key issues
      = map (fun issue =>
               {| message := message issue;
                  path := Some (key :: default [] (path issue)) |}) issues) /\
  (forall World (schema : Schema World) message elems w vs w',
      elements_pass schema elems w vs w' ->
      safeParse (array schema message) (JsArray elems) w
      = (Return (Success (JsArray vs)), w') /\
      length vs = length elems) /\
  (forall schema message elems calls,
      observed schema ->
      (exists vs,
          safeParse (array schema message) (JsArray elems) calls
          = (Return (Success (JsArray vs)), calls ++ elems)) \/
      (exists before x after issues,
          elems = before ++ x :: after /\
          safeParse (array schema message) (JsArray elems) calls
          = (Return
               (Failure (prependKeyToIssues (Index (length before)) issues)),
             calls ++ before ++ [x]))) /\
  safeParse (array (spy (number None)) None)
    (JsArray [JsNumber 1; JsString "x"; JsNumber 3]) []
  = (Return (Failure [{| message := "Expected number";
                         path := Some [Index 1] |}]),
     [JsNumber 1; JsString "x"]).
Proof.
  split; [| split; [| split; [| split; [| split]]]].
  - intros World schema message input w H.
    rewrite (array_not_array _ _ _ _ H). destruct message; reflexivity.
  - intros World schema message before x after w vs w1 issues w2.
    apply array_fail.
  - intros key issues. unfold prependKeyToIssues. apply map_ext.
    intros issue. destruct (path issue); reflexivity.
  - intros World schema message elems w vs w' H. split.
    + apply array_pass, H.
    + apply (elements_pass_length _ _ _ _ _ H).
  - intros schema message elems calls. apply array_calls.
  - reflexivity.
Qed.

(** *** The order of the fields *)

Lemma insert_index_perm {A : Type} (n : N) (field : text * A) l :
  insert_index n field l ≡ₚ (n, field) :: l.
Proof.
  induction l as [| [m g] l IH]; simpl; [reflexivity |].
  destruct (N.leb n m); [reflexivity |].
  rewrite IH. apply Permutation_swap.
Qed.

Lemma for_in_order_perm {A : Type} (written : list (text * A)) :
  for_in_order written ≡ₚ written.
Proof.
  unfold for_in_order.
  induction written as [| [key a] written IH]; simpl; [reflexivity |].
  destruct (array_index key) as [n |].
  - rewrite insert_index_perm. simpl. rewrite IH. reflexivity.
  - rewrite <- Permutation_middle. rewrite IH. reflexivity.
Qed.

Lemma insert_index_ascending {A : Type} (n : N) (field : text * A) l :
  ascending (map fst l) -> ascending (map fst (insert_index n field l)).
Proof.
  induction l as [| [m g] l IH]; simpl; intros H.
  - split; [constructor | exact I].
  - destruct H as [Hm Hl]. destruct (N.leb_spec n m) as [Hle | Hlt]; simpl.
    + split; [| split; assumption].
      constructor; [exact Hle |].
      eapply Forall_impl; [| exact Hm]. simpl. intros x Hx. lia.
    + split; [| exact (IH Hl)].
      rewrite insert_index_perm. simpl. constructor; [lia | exact Hm].
Qed.

Lemma index_fields_ascending {A : Type} (written : list (text * A)) :
  ascending (map fst (index_fields written)).
Proof.
  induction written as [| [key a] written IH]; simpl; [exact I |].
  destruct (array_index key); [apply insert_index_ascending |]; exact IH.
Qed.

Lemma index_fields_indices {A : Type} (written : list (text * A)) :
  Forall (fun f => array_index (fst (snd f)) = Some (fst f))
    (index_fields written).
Proof.
  induction written as [| [key a] written IH]; simpl; [constructor |].
  destruct (array_index key) as [n |] eqn:E; [| exact IH].
  rewrite insert_index_perm. constructor; [exact E | exact IH].
Qed.

Lemma named_fields_names {A : Type} (written : list (text * A)) :
  Forall (fun f => array_index (fst f) = None) (named_fields written).
Proof.
  induction written as [| [key a] written IH]; simpl; [constructor |].
  destruct (array_index key) eqn:E; [exact IH |].
  constructor; [exact E | exact IH].
Qed.

Lemma named_fields_sublist {A : Type} (written : list (text * A)) :
  sublist (named_fields written) written.
Proof.
  induction written as [| [key a] written IH]; simpl; [constructor |].
  destruct (array_index key); [apply sublist_cons | apply sublist_skip];
    exact IH.
Qed.

Lemma for_in_order_named {A : Type} (written : list (text * A)) :
  Forall (fun f => array_index (fst f) = None) written ->
  for_in_order written = written.
Proof.
  intros H.
  assert (Hboth : index_fields written = [] /\ named_fields written = written).
  { induction H as [| [key a] written E _ [IHi IHn]]; simpl; [auto |].
    simpl in E. rewrite E. split; [exact IHi | rewrite IHn; reflexivity]. }
  unfold for_in_order. destruct Hboth as [-> ->]. reflexivity.
Qed.

Lemma for_in_order_keys {A : Type} (written : list (text * A)) key :
  key ∈ map fst (for_in_order written) <-> key ∈ map fst written.
Proof.
  assert (H : map fst (for_in_order written) ≡ₚ map fst written)
    by (apply Permutation_map, for_in_order_perm).
  rewrite H. reflexivity.
Qed.

Lemma for_in_order_NoDup {A : Type} (written : list (text * A)) :
  NoDup (map fst written) -> NoDup (map fst (for_in_order written)).
Proof.
  assert (H : map fst (for_in_order written) ≡ₚ map fst written)
    by (apply Permutation_map, for_in_order_perm).
  rewrite H. auto.
Qed.

(** *** What [input[key]] is *)

Lemma Object_prototype_defined key v :
  own_property Object_prototype key = Some v -> v <> JsUndefined.
Proof.
  unfold Object_prototype. cbn [own_property].
  repeat (destruct (String.eqb _ key);
          [intros H; injection H as <-; discriminate |]).
  discriminate.
Qed.

Lemma inherited_property_defined proto key v :
  inherited_property proto key = Some v -> v <> JsUndefined.
Proof.
  destruct proto; cbn [inherited_property]; try discriminate.
  destruct (String.eqb key "__proto__").
  - intros H. injection H as <-. discriminate.
  - apply Object_prototype_defined.
Qed.

(** The property read is [undefined] exactly when the object has no such
    property of its own and inherits none. *)
Lemma get_prop_undefined proto (props : list (text * JsValue)) key :
  plain_proto proto ->
  own_property props key = None ->
  get_prop proto props key = JsUndefined <->
  proto = ProtoNull \/ (key <> "__proto__" /\ key ∉ map fst Object_prototype).
Proof.
  intros Hp Hown. rewrite <- (inherited_property_none proto key Hp).
  unfold get_prop. rewrite Hown.
  destruct (inherited_property proto key) as [v |] eqn:E; simpl.
  - split; [| discriminate].
    intros ->. exfalso. exact (inherited_property_defined _ _ _ E eq_refl).
  - split; reflexivity.
Qed.

(** C4 (as amended).  On a plain object, [object(shape)] runs the
    validators of the fields in the order in which [for ... in] visits the
    shape: the names that are array indices first, in ascending order, then
    the other names in the order of their definition (the order of
    definition when no name is an array index).  Each validator runs on
    [input[key]]: the own property, else the one inherited from
    [Object.prototype], and [undefined] exactly when there is neither.  At
    the first field, in that order, whose validator refuses, the result is
    the issues of that validator with the name of the field put in front of
    each path, and the validator of no later field is called.  When every
    field passes, the result is a new record with no prototype that holds
    exactly the fields of the shape, each bound to the value its validator
    returned; what else the input holds is left out. *)
Theorem object_spec_for_in :
  (forall A (written : list (text * A)),
      for_in_order written
      = map snd (index_fields written) ++ named_fields written /\
      for_in_order written ≡ₚ written /\
      ascending (map fst (index_fields written)) /\
      Forall (fun f => array_index (fst (snd f)) = Some (fst f))
        (index_fields written) /\
      Forall (fun f => array_index (fst f) = None) (named_fields written) /\
      sublist (named_fields written) written /\
      (Forall (fun f => array_index (fst f) = None) written ->
       for_in_order written = written)) /\
  (forall World (written fields : list (text * Schema World)) key schema later
          message proto props w out w1 issues w2,
      for_in_order written = fields ++ (key, schema) :: later ->
      plain_proto proto ->
      fields_pass proto props fields w out w1 ->
      safeParse schema (get_prop proto props key) w1
      = (Return (Failure issues), w2) ->
      safeParse (object_written written message) (JsObject proto props) w
      = (Return (Failure (prependKeyToIssues (Key key) issues)), w2)) /\
  (forall key issues,
      prependKeyToIssues key issues
      = map (fun issue =>
               {| message := message issue;
                  path := Some (key :: default [] (path issue)) |}) issues) /\
  (forall proto (props : list (text * JsValue)) key,
      plain_proto proto ->
      (forall v, own_property props key = Some v ->
                 get_prop proto props key = v) /\
      (own_property props key = None ->
       get_prop proto props key
       = default JsUndefined (inherited_property proto key)) /\
      (own_property props key = None ->
       get_prop proto props key = JsUndefined <->
       proto = ProtoNull \/
       (key <> "__proto__" /\ key ∉ map fst Object_prototype))) /\
  (forall World (written : list (text * Schema World)) message proto props w
          out w',
      plain_proto proto ->
      NoDup (map fst written) ->
      fields_pass proto props (for_in_order written) w out w' ->
      safeParse (object_written written message) (JsObject proto props) w
      = (Return (Success (JsObject ProtoNull out)), w') /\
      map fst out = map fst (for_in_order written) /\
      (forall key, key ∈ map fst out <-> key ∈ map fst written) /\
      (forall key v, (key, v) ∈ out -> own_property out key = Some v) /\
      (forall key, key ∉ map fst written -> own_property out key = None)) /\
  (forall written message proto props calls,
      plain_proto proto ->
      Forall (fun field => observed (snd field)) written ->
      (exists out,
          safeParse (object_written written message) (JsObject proto props)
            calls
          = (Return (Success (JsObject ProtoNull (assign_fields [] out))),
             calls ++ map (fun field => get_prop proto props (fst field))
                        (for_in_order written))) \/
      (exists fields key schema later issues,
          for_in_order written = fields ++ (key, schema) :: later /\
          safeParse (object_written written message) (JsObject proto props)
            calls
          = (Return (Failure (prependKeyToIssues (Key key) issues)),
             calls ++ map (fun field => get_prop proto props (fst field)) fields
                   ++ [get_prop proto props key]))) /\
  safeParse
    (object_written [("b", spy (string None)); ("1", spy (number None))] None)
    (JsObject ProtoObject [("1", JsString "x"); ("b", JsNumber 1)]) []
  = (Return (Failure [{| message := "Expected number";
                         path := Some [Key "1"] |}]),
     [JsString "x"]) /\
  safeParse
    (object_written
       [("name", spy (string None)); ("age", spy (number None));
        ("email", spy (string None))] None)
    (JsObject ProtoObject
       [("email", JsNumber 0); ("age", JsString "old");
        ("name", JsString "Alice")]) []
  = (Return (Failure [{| message := "Expected number";
                         path := Some [Key "age"] |}]),
     [JsString "Alice"; JsString "old"]) /\
  safeParse
    (object_written [("name", string None); ("age", number None)] None)
    (JsObject ProtoObject
       [("extra", JsBoolean true); ("age", JsNumber 30);
        ("name", JsString "Alice")]) tt
  = (Return (Success (JsObject ProtoNull
                        [("name", JsString "Alice"); ("age", JsNumber 30)])),
     tt).
Proof.
  split; [| split; [| split; [| split; [| split; [| split; [| split;
    [| split]]]]]]].
  - intros A written. split; [reflexivity |].
    split; [apply for_in_order_perm |].
    split; [apply index_fields_ascending |].
    split; [apply index_fields_indices |].
    split; [apply named_fields_names |].
    split; [apply named_fields_sublist | apply for_in_order_named].
  - intros World written fields key schema later message proto props w out w1
      issues w2 Horder Hp Hpass Hx.
    unfold object_written. rewrite Horder.
    exact (object_fail _ _ _ later message _ _ _ _ _ _ _ Hp Hpass Hx).
  - intros key issues. unfold prependKeyToIssues. apply map_ext.
    intros issue. destruct (path issue); reflexivity.
  - intros proto props key Hp. split; [| split].
    + intros v. apply get_prop_own.
    + intros Hown. unfold get_prop. rewrite Hown. reflexivity.
    + apply get_prop_undefined, Hp.
  - intros World written message proto props w out w' Hp Hnd Hpass.
    pose proof (fields_pass_keys _ _ _ _ _ _ Hpass) as Hkeys.
    pose proof (for_in_order_NoDup written Hnd) as Hnd'.
    split; [| split; [| split; [| split]]].
    + apply object_pass; assumption.
    + exact Hkeys.
    + intros key. rewrite Hkeys. apply for_in_order_keys.
    + intros key v. apply own_property_bound. rewrite Hkeys. exact Hnd'.
    + intros key Hkey. apply own_property_absent. rewrite Hkeys.
      rewrite for_in_order_keys. exact Hkey.
  - intros written message proto props calls Hp Hobs.
    apply object_calls; [exact Hp |].
    rewrite for_in_order_perm. exact Hobs.
  - reflexivity.
  - reflexivity.
  - reflexivity.
Qed.

(** The fields are not visited in the order of their definition when a
    name is an array index, and a property the input does not have is not
    always [undefined]: on the shape [{ b: string(), 1: number() }] and the
    input [{ 1: "x", b: 1 }] the first field defined, [b], is refused, yet
    the issue is that of [1]; and a plain object with no property
    [toString] of its own answers the function it inherits. *)
Lemma object_spec_counterexample :
  ~ (forall (written fields : list (text * Schema unit)) key schema later
            message proto props w out w1 issues w2,
        written = fields ++ (key, schema) :: later ->
        plain_proto proto ->
        fields_pass proto props fields w out w1 ->
        safeParse schema (get_prop proto props key) w1
        = (Return (Failure issues), w2) ->
        safeParse (object_written written message) (JsObject proto props) w
        = (Return (Failure (prependKeyToIssues (Key key) issues)), w2)) /\
  ~ (forall proto (props : list (text * JsValue)) key,
        plain_proto proto ->
        own_property props key = None ->
        get_prop proto props key = JsUndefined).
Proof.
  split.
  - intros H.
    specialize (H [("b", string None); ("1", number None)] [] "b"
                  (string None) [("1", number None)] None ProtoObject
                  [("1", JsString "x"); ("b", JsNumber 1)] tt [] tt
                  [{| message := "Expected string"; path := None |}] tt
                  eq_refl (or_intror eq_refl) (fields_pass_nil _ _ _)
                  eq_refl).
    vm_compute in H. discriminate H.
  - intros H.
    specialize (H ProtoObject [] "toString" (or_intror eq_refl) eq_refl).
    vm_compute in H. discriminate H.
Qed.

(** C10.  On [null] and on [undefined], [defaulted(s, d)] succeeds with
    [d] and does not call [s]: the world is as before, whatever [s] is, a
    spy records nothing, a child that throws is not heard, and a default
    that [s] refuses is returned all the same. *)
Theorem defaulted_default_unchecked :
  (forall World (schema : Schema World) defaultValue w,
      safeParse (defaulted schema defaultValue) JsNull w
      = (Return (Success defaultValue), w) /\
      safeParse (defaulted schema defaultValue) JsUndefined w
      = (Return (Success defaultValue), w)) /\
  (forall (schema : Schema (list JsValue)) defaultValue calls,
      safeParse (defaulted (spy schema) defaultValue) JsNull calls
      = (Return (Success defaultValue), calls) /\
      safeParse (defaulted (spy schema) defaultValue) JsUndefined calls
      = (Return (Success defaultValue), calls)) /\
  (forall World defaultValue input (w : World),
      (exists e, safeParse throwing input w = (Throw e, w)) /\
      safeParse (defaulted throwing defaultValue) JsNull w
      = (Return (Success defaultValue), w) /\
      safeParse (defaulted throwing defaultValue) JsUndefined w
      = (Return (Success defaultValue), w)) /\
  safeParse (number None) (JsString "x") tt
  = (Return (single_issue "Expected number"), tt) /\
  safeParse (defaulted (number None) (JsString "x")) JsNull tt
  = (Return (Success (JsString "x")), tt).
Proof.
  split; [| split; [| split; [| split]]].
  - intros World schema defaultValue w. split; reflexivity.
  - intros schema defaultValue calls. split; reflexivity.
  - intros World defaultValue input w. split; [| split]; try reflexivity.
    eexists. reflexivity.
  - reflexivity.
  - reflexivity.
Qed.

(** ** The expectations of [mod.test.ts] *)

Example test_string_rejects_number :
  safeParse (string None) (JsNumber 123) tt
  = (Return (Failure [{| message := "Expected string"; path := None |}]), tt) /\
  (exists issues, parse (string None) (JsNumber 123) tt
                  = (Throw (SchemaError issues), tt)).
Proof. split; [reflexivity | eexists; reflexivity]. Qed.

Example test_number_rejects_NaN_and_Infinity :
  (exists issues, safeParse (number None) (JsNumber nan) tt
                  = (Return (Failure issues), tt)) /\
  (exists issues, safeParse (number None) (JsNumber infinity) tt
                  = (Return (Failure issues), tt)) /\
  safeParse (number None) (JsNumber 42) tt = (Return (Success (JsNumber 42)), tt).
Proof. repeat split; try (eexists; reflexivity). Qed.

Example test_array_of_numbers :
  safeParse (array (number None) None)
    (JsArray [JsNumber 1; JsNumber 2; JsNumber 3]) tt
  = (Return (Success (JsArray [JsNumber 1; JsNumber 2; JsNumber 3])), tt) /\
  safeParse (array (number None) None) (JsString "not an array") tt
  = (Return (Failure [{| message := "Expected array"; path := None |}]), tt) /\
  safeParse (array (number None) None)
    (JsArray [JsNumber 1; JsString "not a number"; JsNumber 3]) tt
  = (Return (Failure [{| message := "Expected number";
                         path := Some [Index 1] |}]), tt).
Proof. repeat split. Qed.

Example test_object :
  safeParse (object [("name", string None); ("age", number None)] None)
    (JsObject ProtoObject [("name", JsString "Alice"); ("age", JsNumber 30)]) tt
  = (Return (Success (JsObject ProtoNull
                        [("name", JsString "Alice"); ("age", JsNumber 30)])),
     tt) /\
  safeParse (object [] None) (JsString "not an object") tt
  = (Return (Failure [{| message := "Expected object"; path := None |}]), tt) /\
  safeParse (object [("name", string None); ("age", number None)] None)
    (JsObject ProtoObject
       [("name", JsString "Alice"); ("age", JsString "not a number")]) tt
  = (Return (Failure [{| message := "Expected number";
                         path := Some [Key "age"] |}]), tt).
Proof. repeat split. Qed.

Example test_maybe_and_defaulted :
  safeParse (maybe (number None)) JsNull tt = (Return (Success JsUndefined), tt) /\
  safeParse (maybe (number None)) (JsNumber 42) tt
  = (Return (Success (JsNumber 42)), tt) /\
  safeParse (maybe (number None)) (JsString "not a number") tt
  = (Return (Failure [{| message := "Expected number"; path := None |}]), tt) /\
  safeParse (defaulted (number None) (JsNumber 42)) JsUndefined tt
  = (Return (Success (JsNumber 42)), tt) /\
  safeParse (defaulted (number None) (JsNumber 42)) (JsNumber 100) tt
  = (Return (Success (JsNumber 100)), tt).
Proof. repeat split. Qed.

Example test_literal :
  safeParse (literal (LitString "test") "Expected literal") (JsString "test") tt
  = (Return (Success (JsString "test")), tt) /\
  safeParse (literal (LitNumber 42) "Expected literal") (JsNumber 100) tt
  = (Return (Failure [{| message := "Expected literal"; path := None |}]), tt) /\
  safeParse (literal (LitBoolean true) "Expected literal") (JsBoolean false) tt
  = (Return (Failure [{| message := "Expected literal"; path := None |}]), tt) /\
  safeParse (literal LitNull "Expected literal") JsNull tt
  = (Return (Success JsNull), tt).
Proof. repeat split. Qed.

(** A field named as a member of [Object.prototype] is read along the
    prototype chain: absent from the input itself, it is [undefined] only
    when the input has no prototype. *)
Example inherited_field :
  safeParse (object [("toString", maybe (string None))] None)
    (JsObject ProtoObject []) tt
  = (Return (Failure [{| message := "Expected string";
                         path := Some [Key "toString"] |}]), tt) /\
  safeParse (object [("toString", maybe (string None))] None)
    (JsObject ProtoNull []) tt
  = (Return (Success (JsObject ProtoNull [("toString", JsUndefined)])), tt).
Proof. repeat split. Qed.

(** [({}).__proto__] is [Object.prototype], whose own [__proto__] is
    [null]. *)
Example proto_of_Object_prototype :
  match get_prop ProtoObject [] "__proto__" with
  | JsObject proto props => get_prop proto props "__proto__" = JsNull
  | _ => False
  end.
Proof. reflexivity. Qed.

(** ** Instances *)

Lemma safeParse_never_throws_witness :
  api_schema (World := unit) (array (number None) None) /\
  (exists result,
      safeParse (array (number None) None)
        (JsArray [JsNumber 1; JsString "x"]) tt = (Return result, tt) /\
      well_formed result) /\
  parse (array (number None) None) (JsArray [JsNumber 1; JsString "x"]) tt
  = (Throw (SchemaError [{| message := "Expected number";
                            path := Some [Index 1] |}]), tt) /\
  parse (array (number None) None) (JsArray [JsNumber 1]) tt
  = (Return (JsArray [JsNumber 1]), tt).
Proof.
  assert (H : api_schema (World := unit) (array (number None) None))
    by (apply api_array, api_number).
  split; [exact H |].
  split; [| split].
  - exact (proj1 (safeParse_never_throws _ H
                    (JsArray [JsNumber 1; JsString "x"]) tt)).
  - apply (proj2 (proj2 (safeParse_never_throws _ H
                           (JsArray [JsNumber 1; JsString "x"]) tt))).
    reflexivity.
  - apply (proj1 (proj2 (safeParse_never_throws _ H
                           (JsArray [JsNumber 1]) tt))).
    reflexivity.
Defined.

Lemma standard_marker_witness :
  api_schema (World := unit) (object [("name", string None)] None) /\
  validate (standard (object [("name", string None)] None)) (JsString "a") tt
  = safeParse (object [("name", string None)] None) (JsString "a") tt /\
  vendor (standard (World := unit) (object [("name", string None)] None))
  = "razr" /\
  version (standard (World := unit) (object [("name", string None)] None))
  = 1%Z.
Proof.
  assert (H : api_schema (World := unit) (object [("name", string None)] None))
    by (apply api_object, api_shape_cons; [apply api_string | apply api_shape_nil]).
  split; [exact H |].
  destruct (standard_marker _ H) as (Hvalidate & Hvendor & Hversion).
  split; [| split].
  - rewrite Hvalidate. reflexivity.
  - exact Hvendor.
  - exact Hversion.
Defined.

Lemma maybe_defaulted_spec_witness :
  JsString "x" <> JsNull /\
  JsString "x" <> JsUndefined /\
  safeParse (maybe (number None)) (JsString "x") tt
  = (Return (single_issue "Expected number"), tt) /\
  safeParse (defaulted (number None) (JsNumber 42)) (JsString "x") tt
  = (Return (single_issue "Expected number"), tt) /\
  safeParse (defaulted (number None) (JsNumber 42)) JsNull tt
  = (Return (Success (JsNumber 42)), tt).
Proof.
  assert (H1 : JsString "x" <> JsNull) by discriminate.
  assert (H2 : JsString "x" <> JsUndefined) by discriminate.
  destruct (maybe_defaulted_spec (World := unit) (number None) (JsNumber 42))
    as (_ & _ & Hnull & _ & Hother).
  destruct (Hother (JsString "x") H1 H2) as [Hmaybe Hdefaulted].
  split; [exact H1 | split; [exact H2 |]].
  split; [| split].
  - rewrite Hmaybe. reflexivity.
  - rewrite Hdefaulted. reflexivity.
  - rewrite Hnull. reflexivity.
Defined.




Lemma paths_read_root_to_leaf_witness :
  fails_inside (World := unit)
    (array (object [("age", number None)] None) None)
    (JsArray [JsObject ProtoObject [("age", JsNumber 1)];
              JsObject ProtoObject [("age", JsString "x")]]) tt
    [Index 1; Key "age"]
    [{| message := "Expected number"; path := None |}] tt /\
  safeParse (array (object [("age", number None)] None) None)
    (JsArray [JsObject ProtoObject [("age", JsNumber 1)];
              JsObject ProtoObject [("age", JsString "x")]]) tt
  = (Return (Failure [{| message := "Expected number";
                         path := Some [Index 1; Key "age"] |}]), tt).
Proof.
  assert (H : fails_inside (World := unit)
    (array (object [("age", number None)] None) None)
    (JsArray [JsObject ProtoObject [("age", JsNumber 1)];
              JsObject ProtoObject [("age", JsString "x")]]) tt
    [Index 1; Key "age"]
    [{| message := "Expected number"; path := None |}] tt).
  { refine (fails_in_array (object [("age", number None)] None) None
              [JsObject ProtoObject [("age", JsNumber 1)]]
              (JsObject ProtoObject [("age", JsString "x")]) [] tt
              [JsObject ProtoNull [("age", JsNumber 1)]] tt
              [Key "age"] _ tt _ _).
    - apply elements_pass_cons with (w1 := tt);
        [reflexivity | apply elements_pass_nil].
    - refine (fails_in_object [] "age" (number None) [] None ProtoObject
                [("age", JsString "x")] tt [] tt [] _ tt _ _ _).
      + right. reflexivity.
      + apply fields_pass_nil.
      + apply fails_here. reflexivity. }
  split; [exact H |].
  exact (proj1 paths_read_root_to_leaf unit _ _ _ _ _ _ H).
Defined.

Lemma array_spec_witness :
  Array_isArray (JsString "not an array") = false /\
  safeParse (array (number None) None) (JsString "not an array") tt
  = (Return (single_issue "Expected array"), tt) /\
  elements_pass (World := unit) (number None) [JsNumber 1] tt [JsNumber 1] tt /\
  safeParse (number None) (JsString "x") tt
  = (Return (Failure [{| message := "Expected number"; path := None |}]), tt) /\
  safeParse (array (number None) None)
    (JsArray [JsNumber 1; JsString "x"; JsNumber 3]) tt
  = (Return (Failure [{| message := "Expected number";
                         path := Some [Index 1] |}]), tt) /\
  safeParse (array (number None) None) (JsArray [JsNumber 1]) tt
  = (Return (Success (JsArray [JsNumber 1])), tt).
Proof.
  destruct array_spec as (Hnot & Hfail & _ & Hpass & _).
  assert (H1 : Array_isArray (JsString "not an array") = false) by reflexivity.
  assert (H2 : elements_pass (World := unit) (number None)
                 [JsNumber 1] tt [JsNumber 1] tt)
    by (apply elements_pass_cons with (w1 := tt);
        [reflexivity | apply elements_pass_nil]).
  assert (H3 : safeParse (number None) (JsString "x") tt
               = (Return (Failure [{| message := "Expected number";
                                      path := None |}]), tt)) by reflexivity.
  split; [exact H1 |].
  split; [exact (Hnot unit (number None) None _ tt H1) |].
  split; [exact H2 |].
  split; [exact H3 |].
  split.
  - exact (Hfail unit (number None) None [JsNumber 1] (JsString "x")
             [JsNumber 3] tt _ tt _ tt H2 H3).
  - exact (proj1 (Hpass unit (number None) None [JsNumber 1] tt _ tt H2)).
Defined.

Lemma object_spec_for_in_witness :
  for_in_order [("b", string (World := unit) None); ("1", number None)]
  = [("1", number None)] ++ ("b", string None) :: [] /\
  plain_proto ProtoObject /\
  NoDup (map fst [("b", string (World := unit) None); ("1", number None)]) /\
  fields_pass (World := unit) ProtoObject
    [("1", JsNumber 7); ("b", JsNumber 1)] [("1", number None)] tt
    [("1", JsNumber 7)] tt /\
  safeParse (string None)
    (get_prop ProtoObject [("1", JsNumber 7); ("b", JsNumber 1)] "b") tt
  = (Return (Failure [{| message := "Expected string"; path := None |}]), tt) /\
  safeParse (object_written [("b", string None); ("1", number None)] None)
    (JsObject ProtoObject [("1", JsNumber 7); ("b", JsNumber 1)]) tt
  = (Return (Failure [{| message := "Expected string";
                         path := Some [Key "b"] |}]), tt) /\
  fields_pass (World := unit) ProtoObject
    [("b", JsString "z"); ("1", JsNumber 7); ("extra", JsNull)]
    (for_in_order [("b", string None); ("1", number None)]) tt
    [("1", JsNumber 7); ("b", JsString "z")] tt /\
  safeParse (object_written [("b", string None); ("1", number None)] None)
    (JsObject ProtoObject
       [("b", JsString "z"); ("1", JsNumber 7); ("extra", JsNull)]) tt
  = (Return (Success (JsObject ProtoNull
                        [("1", JsNumber 7); ("b", JsString "z")])), tt).
Proof.
  destruct object_spec_for_in as (_ & Hfail & _ & _ & Hpass & _).
  assert (Horder :
            for_in_order [("b", string (World := unit) None);
                          ("1", number None)]
            = [("1", number None)] ++ ("b", string None) :: [])
    by reflexivity.
  assert (Hp : plain_proto ProtoObject) by (right; reflexivity).
  assert (Hnd : NoDup (map fst [("b", string (World := unit) None);
                                ("1", number None)])).
  { apply NoDup_cons_2; [| apply NoDup_cons_2; [| apply NoDup_nil_2]].
    - intros H. apply list_elem_of_singleton in H. discriminate H.
    - intros H. inversion H. }
  assert (H1 : fields_pass (World := unit) ProtoObject
                 [("1", JsNumber 7); ("b", JsNumber 1)] [("1", number None)]
                 tt [("1", JsNumber 7)] tt)
    by (apply fields_pass_cons with (w1 := tt);
        [reflexivity | apply fields_pass_nil]).
  assert (H2 : safeParse (string None)
                 (get_prop ProtoObject
                    [("1", JsNumber 7); ("b", JsNumber 1)] "b") tt
               = (Return (Failure [{| message := "Expected string";
                                      path := None |}]), tt)) by reflexivity.
  assert (H3 : fields_pass (World := unit) ProtoObject
                 [("b", JsString "z"); ("1", JsNumber 7); ("extra", JsNull)]
                 (for_in_order [("b", string None); ("1", number None)]) tt
                 [("1", JsNumber 7); ("b", JsString "z")] tt).
  { apply (fields_pass_cons ProtoObject _ "1" (number None)
             [("b", string None)] tt (JsNumber 7) tt
             [("b", JsString "z")] tt); [reflexivity |].
    apply fields_pass_cons with (w1 := tt);
      [reflexivity | apply fields_pass_nil]. }
  split; [exact Horder |].
  split; [exact Hp |].
  split; [exact Hnd |].
  split; [exact H1 |].
  split; [exact H2 |].
  split; [| split; [exact H3 |]].
  - exact (Hfail unit _ [("1", number None)] "b" (string None) [] None
             ProtoObject _ tt _ tt _ tt Horder Hp H1 H2).
  - exact (proj1 (Hpass unit _ None ProtoObject _ tt _ tt Hp Hnd H3)).
Defined.

Lemma defaulted_default_unchecked_witness :
  safeParse (defaulted (number None) (JsString "x")) JsUndefined tt
  = (Return (Success (JsString "x")), tt).
Proof.
  exact (proj2 (proj1 defaulted_default_unchecked unit (number None)
                  (JsString "x") tt)).
Defined.

(** * Further properties of [mod.ts] *)

Section SchemaTheory.

Context {World : Type}.

Implicit Types (schema : Schema World) (w : World) (input : JsValue).
Implicit Types (message : option text) (issues : list Issue).

(** ** [isObject] *)

(** X1.  [isObject] never throws, although [Object.getPrototypeOf] does on
    [null] and [undefined], and it answers [true] exactly on the objects
    whose prototype is [null] or [Object.prototype]. *)
Theorem isObject_decides input w :
  exists plain,
    isObject input w = (Return plain, w) /\
    (plain = true <->
     exists proto props, input = JsObject proto props /\ plain_proto proto).
Proof.
  destruct input as [| | | | | | | | | proto props];
    try (exists false; split; [reflexivity |];
         split; [discriminate | intros (? & ? & E & _); discriminate E]).
  destruct proto as [| | name].
  - exists true. split; [reflexivity |]. split; [| reflexivity].
    intros _. exists ProtoNull, props. split; [reflexivity | left; reflexivity].
  - exists true. split; [reflexivity |]. split; [| reflexivity].
    intros _. exists ProtoObject, props.
    split; [reflexivity | right; reflexivity].
  - exists false. split; [reflexivity |]. split; [discriminate |].
    intros (proto & props' & E & [-> | ->]); discriminate E.
Qed.

(** ** Exceptions of a child *)

Lemma array_loop_throw schema before :
  forall done vs x after w out w1 e w2,
    elements_pass schema before w out w1 ->
    safeParse schema x w1 = (Throw e, w2) ->
    length vs = length done ->
    array_loop schema (done ++ before ++ x :: after) (length done)
      (length (before ++ x :: after))
      (vs ++ replicate (length (before ++ x :: after)) JsUndefined) w
    = (Throw e, w2).
Proof.
  induction before as [| y before IH];
    intros done vs x after w out w1 e w2 Hpass Hx Hlen;
    inversion Hpass as [| ? ? ? v w' out' ? Hy Hrest]; subst.
  - simpl. rewrite array_get_middle.
    rewrite (bind_throw _ _ _ _ _ Hx). reflexivity.
  - cbn [app length]. rewrite (array_loop_step _ _ _ _ _ _ _ _ Hy).
    rewrite <- Hlen, array_set_next_slot.
    apply (IH (done ++ [y]) (vs ++ [v]) x after w' out' w1 e w2 Hrest Hx).
    rewrite !length_app. simpl. lia.
Qed.

(** X2.  When the child of [array] throws on an element, all the elements
    before it having passed, [safeParse] and [parse] of the array schema
    throw that same exception: it is neither caught nor turned into an
    issue, and the elements after it are not visited. *)
Theorem array_propagates_throw schema message before x after w vs w1 e w2 :
  elements_pass schema before w vs w1 ->
  safeParse schema x w1 = (Throw e, w2) ->
  safeParse (array schema message) (JsArray (before ++ x :: after)) w
  = (Throw e, w2) /\
  parse (array schema message) (JsArray (before ++ x :: after)) w
  = (Throw e, w2).
Proof.
  intros Hpass Hx.
  assert (H : safeParse (array schema message)
                (JsArray (before ++ x :: after)) w = (Throw e, w2)).
  { cbn [safeParse array createSchema].
    exact (array_loop_throw schema before [] [] x after w vs w1 e w2
             Hpass Hx eq_refl). }
  split; [exact H |].
  apply parse_createSchema_throw. exact H.
Qed.

Lemma object_loop_throw proto props fields :
  forall key schema later value w out w1 e w2,
    fields_pass proto props fields w out w1 ->
    safeParse schema (get_prop proto props key) w1 = (Throw e, w2) ->
    object_loop (fields ++ (key, schema) :: later) (JsObject proto props)
      value w
    = (Throw e, w2).
Proof.
  induction fields as [| [k s] fields IH];
    intros key schema later value w out w1 e w2 Hpass Hx;
    inversion Hpass as [| ? ? ? ? v w' out' ? Hk Hrest]; subst.
  - cbn [app object_loop Get]. rewrite bind_ret.
    rewrite (bind_throw _ _ _ _ _ Hx). reflexivity.
  - cbn [app]. rewrite (object_loop_step _ _ _ _ _ _ _ _ _ Hk).
    exact (IH _ _ _ _ _ _ _ _ _ Hrest Hx).
Qed.

(** X3.  When the validator of a field throws, all the fields before it
    having passed, [safeParse] and [parse] of the object schema throw that
    same exception, and the validators of the later fields are not
    called. *)
Theorem object_propagates_throw fields key schema later message proto props
    w out w1 e w2 :
  plain_proto proto ->
  fields_pass proto props fields w out w1 ->
  safeParse schema (get_prop proto props key) w1 = (Throw e, w2) ->
  safeParse (object (fields ++ (key, schema) :: later) message)
    (JsObject proto props) w
  = (Throw e, w2) /\
  parse (object (fields ++ (key, schema) :: later) message)
    (JsObject proto props) w
  = (Throw e, w2).
Proof.
  intros Hp Hpass Hx.
  assert (H : safeParse (object (fields ++ (key, schema) :: later) message)
                (JsObject proto props) w = (Throw e, w2)).
  { rewrite (object_plain _ _ _ _ _ Hp).
    exact (object_loop_throw _ _ _ _ _ later [] _ _ _ _ _ Hpass Hx). }
  split; [exact H |].
  apply (parse_createSchema_throw _ _ _ _ _ H).
Qed.

(** ** One issue at a time *)

(** A property of lists of issues that the single issue of a constructor
    has and that [prependKeyToIssues] keeps holds of every failure of a
    schema of [mod.ts]; such a schema never throws and leaves the world
    alone. *)
Lemma source_issues_invariant (Q : list Issue -> Prop) :
  (forall m, Q [{| message := m; path := None |}]) ->
  (forall key issues, Q issues -> Q (prependKeyToIssues key issues)) ->
  (forall schema, source_schema schema ->
     forall input w,
       exists result,
         safeParse schema input w = (Return result, w) /\
         match result with
         | Success _ => True
         | Failure issues => Q issues
         end) /\
  (forall shape, source_shape (World := World) shape ->
     forall proto props value w,
       exists result,
         object_loop shape (JsObject proto props) value w
         = (Return result, w) /\
         match result with
         | Success _ => True
         | Failure issues => Q issues
         end).
Proof.
  intros Hsingle Hprepend. apply source_mutind.
  - intros message input w. rewrite string_spec. eexists.
    split; [reflexivity |]. destruct (decide _); [exact I | apply Hsingle].
  - intros message input w. rewrite number_spec. eexists.
    split; [reflexivity |]. destruct (decide _); [exact I | apply Hsingle].
  - intros message input w. rewrite boolean_spec. eexists.
    split; [reflexivity |]. destruct (decide _); [exact I | apply Hsingle].
  - intros schema message _ IH input w.
    destruct (Array_isArray input) eqn:E.
    + destruct input; try discriminate E. cbn [safeParse array createSchema].
      cbn [Array_isArray negb array_elements].
      generalize (replicate (length elems) JsUndefined).
      generalize 0. generalize (length elems) at 1.
      intros remaining. induction remaining as [| remaining IHr];
        intros i value.
      * eexists. split; [reflexivity | exact I].
      * cbn [array_loop].
        destruct (IH (array_get elems i) w) as ([v | issues] & Hr & HQ);
          rewrite (bind_return _ _ _ _ _ Hr).
        -- apply IHr.
        -- eexists. split; [reflexivity | apply Hprepend, HQ].
    + rewrite (array_not_array _ _ _ _ E). eexists.
      split; [reflexivity | apply Hsingle].
  - intros shape message _ IH input w.
    destruct (plain_or_not (World := World) input) as [(proto & props & -> & Hp) | Hn].
    + rewrite (object_plain _ _ _ _ _ Hp). apply IH.
    + rewrite (object_not_plain _ _ _ _ Hn). eexists.
      split; [reflexivity | apply Hsingle].
  - intros schema _ IH input w. cbn [safeParse maybe createSchema].
    destruct (is_null input || is_undefined input).
    + eexists. split; [reflexivity | exact I].
    + apply IH.
  - intros schema defaultValue _ IH input w.
    cbn [safeParse defaulted createSchema].
    destruct (is_null input || is_undefined input).
    + eexists. split; [reflexivity | exact I].
    + apply IH.
  - intros proto props value w. eexists. split; [reflexivity | exact I].
  - intros key schema shape _ IHs _ IHshape proto props value w.
    cbn [object_loop Get]. rewrite bind_ret.
    destruct (IHs (get_prop proto props key) w) as ([v | issues] & Hr & HQ);
      rewrite (bind_return _ _ _ _ _ Hr).
    + apply IHshape.
    + eexists. split; [reflexivity | apply Hprepend, HQ].
Qed.

(** X4.  A schema built from the constructors of [mod.ts] reports one
    issue at a time: whenever its [safeParse] fails, the list holds exactly
    one issue, however deep and wide the schema and the input are. *)
Theorem source_schema_single_issue schema input w issues w' :
  source_schema schema ->
  safeParse schema input w = (Return (Failure issues), w') ->
  exists issue, issues = [issue].
Proof.
  intros Hsrc H.
  assert (Hinv := source_issues_invariant
                    (fun issues => exists issue, issues = [issue])).
  destruct Hinv as [Hinv _].
  - intros m. eexists. reflexivity.
  - intros key ? [issue ->]. eexists. reflexivity.
  - destruct (Hinv schema Hsrc input w) as (result & Hr & HQ).
    rewrite Hr in H. injection H as -> _. exact HQ.
Qed.

(** ** Messages *)

Lemma prependKeyToIssues_messages key issues :
  map message (prependKeyToIssues key issues) = map message issues.
Proof. unfold prependKeyToIssues. rewrite map_map. reflexivity. Qed.

Lemma path_under_messages segs issues :
  map message (map (path_under segs) issues) = map message issues.
Proof.
  rewrite map_map. apply map_ext. intros issue. destruct segs; reflexivity.
Qed.

(** X5.  However deep the failing validator sits under [array], [object],
    [maybe] and [defaulted], the outermost [safeParse] returns its issues
    with their messages as they were, in the same order: an enclosing
    combinator only ever touches the path. *)
Theorem messages_untouched schema input w segs issues w' :
  fails_inside schema input w segs issues w' ->
  exists outer,
    safeParse schema input w = (Return (Failure outer), w') /\
    map message outer = map message issues.
Proof.
  intros H. exists (map (path_under segs) issues). split.
  - apply fails_inside_safeParse, H.
  - apply path_under_messages.
Qed.

(** ** [maybe] and [defaulted], one around the other *)

(** X6.  Around [maybe] or [defaulted], the outer one decides what [null]
    and [undefined] become: a default inside [maybe] is never used,
    [maybe] inside [defaulted] does not replace the default, the outer of
    two defaults wins, and [maybe] twice is [maybe]. *)
Theorem modifiers_compose schema (inner outer : JsValue) input :
  safeParse (maybe (maybe schema)) input = safeParse (maybe schema) input /\
  safeParse (maybe (defaulted schema inner)) input
  = safeParse (maybe schema) input /\
  safeParse (defaulted (maybe schema) outer) input
  = safeParse (defaulted schema outer) input /\
  safeParse (defaulted (defaulted schema inner) outer) input
  = safeParse (defaulted schema outer) input.
Proof.
  cbn [safeParse maybe defaulted createSchema].
  destruct (is_null input || is_undefined input); repeat split.
Qed.

(** ** The fields [object] reads *)

Lemma object_loop_ext shape proto1 props1 proto2 props2 :
  (forall key, key ∈ map fst shape ->
               get_prop proto1 props1 key = get_prop proto2 props2 key) ->
  forall value w,
    object_loop shape (JsObject proto1 props1) value w
    = object_loop shape (JsObject proto2 props2) value w.
Proof.
  induction shape as [| [key schema] shape IH]; intros Hsame value w.
  - reflexivity.
  - cbn [object_loop Get]. rewrite !bind_ret.
    rewrite (Hsame key) by (simpl; apply elem_of_cons; left; reflexivity).
    unfold bind.
    destruct (safeParse schema (get_prop proto2 props2 key) w)
      as [[[v | issues] | e] w1]; try reflexivity.
    apply IH. intros k Hk. apply Hsame. simpl. apply elem_of_cons. right.
    exact Hk.
Qed.

(** X8.  [object(shape)] looks at nothing but the properties its shape
    names: two plain objects that agree on those properties get the same
    result and the same effects, whatever else they hold and whichever of
    the two plain prototypes they have. *)
Theorem object_reads_declared_fields shape message proto1 props1 proto2
    props2 w :
  plain_proto proto1 ->
  plain_proto proto2 ->
  (forall key, key ∈ map fst shape ->
               get_prop proto1 props1 key = get_prop proto2 props2 key) ->
  safeParse (object shape message) (JsObject proto1 props1) w
  = safeParse (object shape message) (JsObject proto2 props2) w.
Proof.
  intros Hp1 Hp2 Hsame.
  rewrite (object_plain _ _ _ _ _ Hp1), (object_plain _ _ _ _ _ Hp2).
  apply object_loop_ext, Hsame.
Qed.

(** ** Validating a validated value *)

Lemma array_throw schema message before x after w vs w1 e w2 :
  elements_pass schema before w vs w1 ->
  safeParse schema x w1 = (Throw e, w2) ->
  safeParse (array schema message) (JsArray (before ++ x :: after)) w
  = (Throw e, w2).
Proof.
  intros Hpass Hx. cbn [safeParse array createSchema].
  exact (array_loop_throw schema before [] [] x after w vs w1 e w2
           Hpass Hx eq_refl).
Qed.

Lemma elements_pass_revalidate schema xs w vs w' :
  revalidates schema ->
  elements_pass schema xs w vs w' ->
  w' = w /\ forall w0, elements_pass schema vs w0 vs w0.
Proof.
  intros Hs Hpass. induction Hpass as [w | x xs w v w1 vs w2 Hx _ IH].
  - split; [reflexivity | intros w0; constructor].
  - destruct (Hs x w v w1 Hx) as (-> & Hv & _).
    destruct IH as [-> Hvs]. split; [reflexivity |].
    intros w0. econstructor; [apply Hv | apply Hvs].
Qed.

Lemma absent_or_present input :
  {is_null input || is_undefined input = true}
  + {is_null input || is_undefined input = false}.
Proof. destruct (is_null input || is_undefined input); auto. Qed.

Lemma settled_revalidates_mut :
  (forall schema, settled schema -> revalidates schema) /\
  (forall shape, settled_shape (World := World) shape -> fields_revalidate shape).
Proof.
  apply settled_mutind.
  - intros message input w v w' H. rewrite string_spec in H. unfold ret in H.
    destruct (decide (typeof input = "string")) as [E | _];
      [| discriminate H].
    injection H as <- <-. split; [reflexivity | split; [| auto]].
    intros w0. rewrite string_spec. unfold ret.
    destruct (decide (typeof input = "string")); [reflexivity | contradiction].
  - intros message input w v w' H. rewrite number_spec in H. unfold ret in H.
    destruct (decide (typeof input = "number" /\ Number_isFinite input = true))
      as [E | _]; [| discriminate H].
    injection H as <- <-. split; [reflexivity | split; [| auto]].
    intros w0. rewrite number_spec. unfold ret.
    destruct (decide (typeof input = "number" /\ Number_isFinite input = true));
      [reflexivity | contradiction].
  - intros message input w v w' H. rewrite boolean_spec in H. unfold ret in H.
    destruct (decide (typeof input = "boolean")) as [E | _];
      [| discriminate H].
    injection H as <- <-. split; [reflexivity | split; [| auto]].
    intros w0. rewrite boolean_spec. unfold ret.
    destruct (decide (typeof input = "boolean")); [reflexivity | contradiction].
  - intros schema message _ IH input w v w' H.
    destruct (Array_isArray input) eqn:E.
    2:{ rewrite (array_not_array _ _ _ _ E) in H. discriminate H. }
    destruct input as [| | | | | | | | elems |]; try discriminate E.
    destruct (elements_cases schema elems w) as [(vs & w1 & Hpass) | [Hc | Hc]].
    + rewrite (array_pass _ message _ _ _ _ Hpass) in H. injection H as <- <-.
      destruct (elements_pass_revalidate _ _ _ _ _ IH Hpass) as [-> Hvs].
      split; [reflexivity | split; [| reflexivity]].
      intros w0. apply array_pass, Hvs.
    + destruct Hc as (before & x & after & vs & w1 & issues & w2 & -> & Hp & Hx).
      rewrite (array_fail _ message _ _ after _ _ _ _ _ Hp Hx) in H.
      discriminate H.
    + destruct Hc as (before & x & after & vs & w1 & e & w2 & -> & Hp & Hx).
      rewrite (array_throw _ message _ _ after _ _ _ _ _ Hp Hx) in H.
      discriminate H.
  - intros shape message Hnd _ IH input w v w' H.
    destruct (plain_or_not (World := World) input)
      as [(proto & props & -> & Hp) | Hn].
    2:{ rewrite (object_not_plain _ _ _ _ Hn) in H. discriminate H. }
    destruct (fields_cases proto props shape w)
      as [(out & w1 & Hpass) | [Hc | Hc]].
    + rewrite (object_pass _ message _ _ _ _ _ Hp Hnd Hpass) in H.
      injection H as <- <-.
      destruct (IH _ _ _ _ _ Hpass) as [-> Hout].
      split; [reflexivity | split; [| reflexivity]].
      intros w0. apply object_pass; [left; reflexivity | exact Hnd |].
      apply Hout. intros key v Hin. apply get_prop_own.
      apply own_property_bound; [| exact Hin].
      rewrite (fields_pass_keys _ _ _ _ _ _ Hpass). exact Hnd.
    + destruct Hc as (fields & key & schema & later & out & w1 & issues & w2
                      & -> & Hpass & Hx).
      rewrite (object_fail _ _ _ later message _ _ _ _ _ _ _ Hp Hpass Hx) in H.
      discriminate H.
    + destruct Hc as (fields & key & schema & later & out & w1 & e & w2
                      & -> & Hpass & Hx).
      rewrite (object_plain _ _ _ _ _ Hp) in H.
      rewrite (object_loop_throw _ _ _ _ _ later [] _ _ _ _ _ Hpass Hx) in H.
      discriminate H.
  - intros schema _ IH input w v w' H.
    cbn [safeParse maybe createSchema] in H.
    destruct (absent_or_present input) as [E | E]; rewrite E in H.
    + injection H as <- <-. split; [reflexivity | split; [reflexivity |]].
      intros Hpresent. congruence.
    + destruct (IH _ _ _ _ H) as (-> & Hv & Hpresent).
      split; [reflexivity | split; [| exact Hpresent]].
      intros w0. rewrite maybe_present by exact (Hpresent E). apply Hv.
  - intros schema defaultValue _ IH Hdefault input w v w' H.
    cbn [safeParse defaulted createSchema] in H.
    destruct (absent_or_present input) as [E | E]; rewrite E in H.
    + injection H as <- <-. split; [reflexivity | split].
      * intros w0. cbn [safeParse defaulted createSchema].
        destruct (is_null defaultValue || is_undefined defaultValue);
          [reflexivity | apply Hdefault].
      * intros Hpresent. congruence.
    + destruct (IH _ _ _ _ H) as (-> & Hv & Hpresent).
      split; [reflexivity | split; [| exact Hpresent]].
      intros w0. rewrite defaulted_present by exact (Hpresent E). apply Hv.
  - intros proto props w out w' Hpass.
    inversion Hpass; subst. split; [reflexivity |].
    intros full w0 _. constructor.
  - intros key schema shape _ IHs _ IHshape proto props w out w' Hpass.
    inversion Hpass as [| ? ? ? ? v w1 out' ? Hx Hrest]; subst.
    destruct (IHs _ _ _ _ Hx) as (-> & Hv & _).
    destruct (IHshape _ _ _ _ _ Hrest) as [-> Hout].
    split; [reflexivity |].
    intros full w0 Hfull. econstructor.
    + rewrite (Hfull key v) by (apply elem_of_cons; left; reflexivity).
      apply Hv.
    + apply Hout. intros k x Hin. apply Hfull, elem_of_cons. right. exact Hin.
Qed.

(** X7.  What a schema of [mod.ts] returns, it accepts again and returns
    unchanged, provided the fields of its shapes have distinct names and
    each default is a value its own child returns unchanged: validating a
    validated value changes nothing. *)
Theorem validated_value_revalidates schema input w v w' :
  settled schema ->
  safeParse schema input w = (Return (Success v), w') ->
  safeParse schema v w' = (Return (Success v), w').
Proof.
  intros Hs H.
  destruct (proj1 settled_revalidates_mut schema Hs input w v w' H)
    as (_ & Hv & _).
  apply Hv.
Qed.

(** ** Where the paths lead *)

Lemma single_issue_points_into input (m : text) :
  issues_point_into input (single_issue m).
Proof. repeat constructor. exists input. reflexivity. Qed.

Lemma prepend_points_into (outer inner : JsValue) key issues :
  (forall p v, locate inner p = Some v -> locate outer (key :: p) = Some v) ->
  issues_point_into inner (Failure issues) ->
  issues_point_into outer (Failure (prependKeyToIssues key issues)).
Proof.
  intros Hstep H. simpl in *.
  induction H as [| issue issues [v Hv] _ IH]; simpl; constructor.
  - exists v. simpl. destruct (path issue) as [p |]; apply Hstep, Hv.
  - exact IH.
Qed.

Lemma source_points_into_mut :
  (forall schema, source_schema schema ->
     forall input w result w',
       safeParse schema input w = (Return result, w') ->
       issues_point_into input result) /\
  (forall shape, source_shape (World := World) shape ->
     forall proto props value w result w',
       object_loop shape (JsObject proto props) value w = (Return result, w') ->
       issues_point_into (JsObject proto props) result).
Proof.
  apply source_mutind.
  - intros message input w result w' H. rewrite string_spec in H.
    injection H as <- _.
    destruct (decide _); [exact I | apply single_issue_points_into].
  - intros message input w result w' H. rewrite number_spec in H.
    injection H as <- _.
    destruct (decide _); [exact I | apply single_issue_points_into].
  - intros message input w result w' H. rewrite boolean_spec in H.
    injection H as <- _.
    destruct (decide _); [exact I | apply single_issue_points_into].
  - intros schema message _ IH input w result w' H.
    destruct (Array_isArray input) eqn:E.
    2:{ rewrite (array_not_array _ _ _ _ E) in H. injection H as <- _.
        apply single_issue_points_into. }
    destruct input as [| | | | | | | | elems |]; try discriminate E.
    destruct (elements_cases schema elems w) as [(vs & w1 & Hpass) | [Hc | Hc]].
    + rewrite (array_pass _ message _ _ _ _ Hpass) in H.
      injection H as <- _. exact I.
    + destruct Hc as (before & x & after & vs & w1 & issues & w2 & -> & Hp & Hx).
      rewrite (array_fail _ message _ _ after _ _ _ _ _ Hp Hx) in H.
      injection H as <- _.
      apply (prepend_points_into _ x); [| exact (IH _ _ _ _ Hx)].
      intros p v Hv. cbn [locate]. rewrite list_lookup_middle by reflexivity.
      exact Hv.
    + destruct Hc as (before & x & after & vs & w1 & e & w2 & -> & Hp & Hx).
      rewrite (array_throw _ message _ _ after _ _ _ _ _ Hp Hx) in H.
      discriminate H.
  - intros shape message _ IH input w result w' H.
    destruct (plain_or_not (World := World) input)
      as [(proto & props & -> & Hp) | Hn].
    + rewrite (object_plain _ _ _ _ _ Hp) in H. exact (IH _ _ _ _ _ _ H).
    + rewrite (object_not_plain _ _ _ _ Hn) in H. injection H as <- _.
      apply single_issue_points_into.
  - intros schema _ IH input w result w' H.
    cbn [safeParse maybe createSchema] in H.
    destruct (is_null input || is_undefined input).
    + injection H as <- _. exact I.
    + exact (IH _ _ _ _ H).
  - intros schema defaultValue _ IH input w result w' H.
    cbn [safeParse defaulted createSchema] in H.
    destruct (is_null input || is_undefined input).
    + injection H as <- _. exact I.
    + exact (IH _ _ _ _ H).
  - intros proto props value w result w' H. injection H as <- _. exact I.
  - intros key schema shape _ IHs _ IHshape proto props value w result w' H.
    cbn [object_loop Get] in H. rewrite bind_ret in H.
    apply bind_inv in H. destruct H as ([v | issues] & w1 & Hx & H).
    + exact (IHshape _ _ _ _ _ _ H).
    + injection H as <- _.
      apply (prepend_points_into _ (get_prop proto props key));
        [| exact (IHs _ _ _ _ Hx)].
      intros p v Hv. exact Hv.
Qed.

(** X12.  Every issue a schema of [mod.ts] reports points into the input:
    followed from the root, its path (the empty one when the issue has
    none) leads to a value, each index falling within the bounds of the
    array it indexes and each name being read from an object. *)
Theorem issue_paths_point_into_input schema input w issues w' :
  source_schema schema ->
  safeParse schema input w = (Return (Failure issues), w') ->
  Forall (fun issue =>
            exists v, locate input (default [] (path issue)) = Some v) issues.
Proof.
  intros Hsrc H.
  exact (proj1 source_points_into_mut schema Hsrc input w _ w' H).
Qed.

End SchemaTheory.

(** * Properties of [packages/crypto] *)

Section CryptoTheory.

Import Stdlib.Init.Byte.

Import Crypto.

Local Open Scope Z_scope.

Lemma byte_value_range (b : byte) : 0 <= byte_value b < 256.
Proof.
  unfold byte_value. pose proof (Stdlib.Strings.Byte.to_N_bounded b). lia.
Qed.

Lemma byte_value_inj (a b : byte) : byte_value a = byte_value b -> a = b.
Proof.
  unfold byte_value. intros H. apply N2Z.inj in H.
  pose proof (Stdlib.Strings.Byte.of_to_N a) as Ha.
  pose proof (Stdlib.Strings.Byte.of_to_N b) as Hb.
  congruence.
Qed.

Lemma ToInt32_small (z : Z) :
  - 2 ^ 31 <= z < 2 ^ 31 -> ToInt32 (Some z) = z.
Proof. intros H. unfold ToInt32. rewrite Z.mod_small; lia. Qed.

Lemma log2_byte (a : Z) : 0 <= a < 256 -> Z.log2 a < 8.
Proof.
  intros [H0 H]. destruct (Z.eq_dec a 0) as [-> | Hne]; [reflexivity |].
  apply Z.log2_lt_pow2; lia.
Qed.

Lemma byte_of_log2 (a : Z) : 0 <= a -> Z.log2 a < 8 -> 0 <= a < 256.
Proof.
  intros H0 H. split; [exact H0 |].
  destruct (Z.eq_dec a 0) as [-> | Hne]; [lia |].
  apply (Z.log2_lt_pow2 a 8); lia.
Qed.

Lemma lor_byte (a b : Z) :
  0 <= a < 256 -> 0 <= b < 256 -> 0 <= Z.lor a b < 256.
Proof.
  intros Ha Hb. apply byte_of_log2.
  - apply Z.lor_nonneg. lia.
  - rewrite Z.log2_lor by lia.
    pose proof (log2_byte a Ha). pose proof (log2_byte b Hb). lia.
Qed.

Lemma lxor_byte (a b : Z) :
  0 <= a < 256 -> 0 <= b < 256 -> 0 <= Z.lxor a b < 256.
Proof.
  intros Ha Hb. apply byte_of_log2.
  - apply Z.lxor_nonneg. lia.
  - pose proof (Z.log2_lxor a b ltac:(lia) ltac:(lia)).
    pose proof (log2_byte a Ha). pose proof (log2_byte b Hb). lia.
Qed.

Lemma element_middle (done rest : list byte) (x : byte) :
  element (done ++ x :: rest) (length done) = Some (byte_value x).
Proof. unfold element. rewrite list_lookup_middle; reflexivity. Qed.

(** One turn of the loop of [verify] on two bytes. *)
Lemma compare_step (result : Z) (x y : byte) :
  0 <= result < 256 ->
  let next :=
    bitwise_or (Some result)
      (Some (bitwise_xor (Some (byte_value x)) (Some (byte_value y)))) in
  0 <= next < 256 /\ (next = 0 <-> result = 0 /\ x = y).
Proof.
  intros Hr. pose proof (byte_value_range x) as Hx.
  pose proof (byte_value_range y) as Hy.
  pose proof (lxor_byte _ _ Hx Hy) as Hxor.
  cbv zeta. unfold bitwise_or, bitwise_xor.
  rewrite (ToInt32_small (byte_value x)), (ToInt32_small (byte_value y)),
    (ToInt32_small (Z.lxor _ _)), (ToInt32_small result) by lia.
  split; [apply lor_byte; assumption |].
  rewrite Z.lor_eq_0_iff, Z.lxor_eq_0_iff.
  split; intros [H1 H2]; split; auto.
  - apply byte_value_inj, H2.
  - congruence.
Qed.

(** The loop of [verify], started after [done] bytes: the result is [0]
    exactly when it was [0] before and the bytes still to compare are the
    same on both sides. *)
Lemma compare_loop_spec (rest_a : list byte) :
  forall (rest_b done_a done_b : list byte) (result : Z),
    length done_a = length done_b ->
    length rest_a = length rest_b ->
    0 <= result < 256 ->
    compare_loop (done_a ++ rest_a) (done_b ++ rest_b)
      (length done_a) (length rest_a) result = 0
    <-> result = 0 /\ rest_a = rest_b.
Proof.
  induction rest_a as [| x rest_a IH];
    intros [| y rest_b] done_a done_b result Hdone Hrest Hr;
    try discriminate Hrest.
  - simpl. split; [intros ->; auto | intros [-> _]; reflexivity].
  - cbn [length compare_loop].
    rewrite element_middle. rewrite Hdone at 2. rewrite element_middle.
    destruct (compare_step result x y Hr) as [Hnext Hzero].
    replace (S (length done_a)) with (length (done_a ++ [x]))
      by (rewrite length_app; simpl; lia).
    rewrite (app_assoc done_a [x] rest_a : done_a ++ x :: rest_a = _).
    rewrite (app_assoc done_b [y] rest_b : done_b ++ y :: rest_b = _).
    rewrite (IH rest_b (done_a ++ [x]) (done_b ++ [y])).
    + rewrite Hzero. split.
      * intros [[-> ->] ->]. auto.
      * intros [-> E]. injection E as -> ->. auto.
    + rewrite !length_app. simpl. lia.
    + simpl in Hrest. lia.
    + exact Hnext.
Qed.

Lemma hash_default (PBKDF2 : text -> list byte -> Z -> Settled (list byte))
    (password : text) (salt : list byte) (iterations : option Z) :
  hash PBKDF2 password salt (Some (default 100000 iterations))
  = hash PBKDF2 password salt iterations.
Proof. destruct iterations; reflexivity. Qed.

Lemma hash_short_salt (PBKDF2 : text -> list byte -> Z -> Settled (list byte))
    (password : text) (salt : list byte) (iterations : option Z) :
  (length salt < 16)%nat ->
  hash PBKDF2 password salt iterations
  = Error "Salt must be at least 16 bytes long for security.".
Proof.
  intros H. unfold hash.
  destruct (Nat.ltb_spec (length salt) 16); [reflexivity | lia].
Qed.

Lemma hash_long_salt (PBKDF2 : text -> list byte -> Z -> Settled (list byte))
    (password : text) (salt : list byte) (iterations : option Z) :
  (16 <= length salt)%nat ->
  hash PBKDF2 password salt iterations
  = PBKDF2 password salt (default 100000 iterations).
Proof.
  intros H. unfold hash.
  destruct (Nat.ltb_spec (length salt) 16); [lia |].
  destruct (PBKDF2 password salt (default 100000 iterations)); reflexivity.
Qed.

(** X9.  [verify] resolves to [true] exactly when [hash] of the password,
    with the same salt and iterations, resolves to the very bytes of
    [hashedPassword], and to [false] otherwise, a different length
    included; in particular it accepts what [hash] returned.  When [hash]
    rejects, as it does on a salt of fewer than 16 bytes, [verify] rejects
    with the same error. *)
Theorem verify_spec (PBKDF2 : text -> list byte -> Z -> Settled (list byte))
    (password : text) (hashedPassword salt : list byte)
    (iterations : option Z) :
  ((length salt < 16)%nat ->
   verify PBKDF2 password hashedPassword salt iterations
   = Error "Salt must be at least 16 bytes long for security.") /\
  (forall reason,
      hash PBKDF2 password salt iterations = Error reason ->
      verify PBKDF2 password hashedPassword salt iterations = Error reason) /\
  (forall newHashedPassword,
      hash PBKDF2 password salt iterations = Value newHashedPassword ->
      exists verdict,
        verify PBKDF2 password hashedPassword salt iterations = Value verdict /\
        (verdict = true <-> newHashedPassword = hashedPassword)).
Proof.
  assert (Hreject : forall reason,
             hash PBKDF2 password salt iterations = Error reason ->
             verify PBKDF2 password hashedPassword salt iterations
             = Error reason).
  { intros reason H. unfold verify. rewrite hash_default, H. reflexivity. }
  split; [| split].
  - intros Hshort. apply Hreject, hash_short_salt, Hshort.
  - exact Hreject.
  - intros h H. unfold verify. rewrite hash_default, H. cbn [await].
    destruct (Nat.eqb_spec (length h) (length hashedPassword)) as [Hlen | Hlen];
      cbn [negb].
    + eexists. split; [reflexivity |].
      rewrite Z.eqb_eq.
      rewrite (compare_loop_spec h hashedPassword [] [] 0 eq_refl Hlen)
        by lia.
      split; [intros [_ E]; exact E | intros E; split; [reflexivity | exact E]].
    + exists false. split; [reflexivity |].
      split; [discriminate | intros ->; contradiction].
Qed.

(** X10.  On an integer length, [generateSalt] throws below 16 without
    drawing on the source of randomness; and since [crypto.getRandomValues]
    fills the array it is given, every salt [generateSalt] returns for an
    integer length has the length asked for, at least 16, so that [hash]
    never refuses it: with such a salt [hash] settles as the key derivation
    of the platform does. *)
Theorem generated_salt_is_accepted
    (PBKDF2 : text -> list byte -> Z -> Settled (list byte))
    (Entropy : Type)
    (getRandomValues : list byte -> Entropy -> Settled (list byte) * Entropy)
    (len : option Z) (entropy : Entropy) :
  (forall a e salt e',
      getRandomValues a e = (Value salt, e') -> length salt = length a) ->
  (default 16 len < 16 ->
   generateSalt Entropy getRandomValues (option_map Integer len) entropy
   = (Error "Salt length must be at least 16 bytes for security.", entropy)) /\
  (forall salt entropy',
      generateSalt Entropy getRandomValues (option_map Integer len) entropy
      = (Value salt, entropy') ->
      16 <= default 16 len /\
      Z.of_nat (length salt) = default 16 len /\
      forall password iterations,
        hash PBKDF2 password salt iterations
        = PBKDF2 password salt (default 100000 iterations)).
Proof.
  intros Hfill.
  assert (E : default (Integer 16) (option_map Integer len)
              = Integer (default 16 len)) by (destruct len; reflexivity).
  unfold generateSalt. rewrite E.
  destruct (Z.ltb_spec (default 16 len) 16) as [Hlt | Hge].
  - split; [reflexivity |]. intros salt entropy' H. discriminate H.
  - split; [lia |]. intros salt entropy' H.
    apply Hfill in H. unfold new_Uint8Array in H.
    rewrite length_replicate in H.
    split; [exact Hge | split; [lia |]].
    intros password iterations. apply hash_long_salt. lia.
Qed.

(** The minimum does not hold [NaN] back: [generateSalt(NaN)] returns what
    the platform makes of the empty array, a salt that [hash] refuses. *)
Example generateSalt_NaN :
  generateSalt nat toy_getRandomValues (Some NotANumber) 0%nat
  = (Value [], 1%nat) /\
  hash toy_PBKDF2 "password" [] None
  = Error "Salt must be at least 16 bytes long for security.".
Proof. split; reflexivity. Qed.

Lemma ToUint8_byte (b : byte) : ToUint8 (Stdlib.Strings.Byte.to_N b) = b.
Proof.
  unfold ToUint8. pose proof (Stdlib.Strings.Byte.to_N_bounded b).
  rewrite N.mod_small by lia.
  rewrite Stdlib.Strings.Byte.of_to_N. reflexivity.
Qed.

Lemma ToUint8_bytes (data : list byte) :
  map ToUint8 (map Stdlib.Strings.Byte.to_N data) = data.
Proof.
  induction data as [| b data IH]; simpl; [reflexivity |].
  rewrite ToUint8_byte, IH. reflexivity.
Qed.

Lemma bytes_are_binary (data : list byte) :
  Forall (fun u => (u < 256)%N) (map Stdlib.Strings.Byte.to_N data).
Proof.
  induction data as [| b data IH]; simpl; constructor; [| exact IH].
  pose proof (Stdlib.Strings.Byte.to_N_bounded b). lia.
Qed.

(** X11.  On a platform whose [atob] undoes [btoa] on the strings of code
    units below 256, [fromBase64] undoes [toBase64]: decoding what was
    encoded gives the bytes back, for every array short enough to be
    spread into the arguments of one call; a longer one makes [toBase64]
    throw before anything is encoded. *)
Theorem base64_round_trip (btoa atob : CodeUnits -> Settled CodeUnits)
    (max_arguments : nat) (data : list byte) :
  (forall binary,
      Forall (fun u => (u < 256)%N) binary ->
      exists encoded, btoa binary = Value encoded /\
                      atob encoded = Value binary) ->
  ((length data <= max_arguments)%nat ->
   await (toBase64 btoa max_arguments data) (fromBase64 atob) = Value data) /\
  ((max_arguments < length data)%nat ->
   exists reason, toBase64 btoa max_arguments data = Error reason).
Proof.
  intros Hplatform. unfold toBase64, String_fromCharCode. split; intros Hlen.
  - destruct (Nat.ltb_spec max_arguments (length data)); [lia |].
    cbn [await].
    destruct (Hplatform _ (bytes_are_binary data)) as (encoded & -> & Hback).
    cbn [await]. unfold fromBase64. rewrite Hback. cbn [await].
    rewrite ToUint8_bytes. reflexivity.
  - destruct (Nat.ltb_spec max_arguments (length data)); [| lia].
    eexists. reflexivity.
Qed.

End CryptoTheory.

(** ** Instances of the further properties *)

Lemma array_propagates_throw_witness :
  elements_pass (World := unit) fragile [JsNumber 1] tt [JsNumber 1] tt /\
  safeParse fragile JsNull tt = (Throw (TypeError "null"), tt) /\
  safeParse (array fragile None) (JsArray [JsNumber 1; JsNull; JsNumber 3]) tt
  = (Throw (TypeError "null"), tt) /\
  parse (array fragile None) (JsArray [JsNumber 1; JsNull; JsNumber 3]) tt
  = (Throw (TypeError "null"), tt).
Proof.
  assert (H1 : elements_pass (World := unit) fragile
                 [JsNumber 1] tt [JsNumber 1] tt)
    by (apply elements_pass_cons with (w1 := tt);
        [reflexivity | apply elements_pass_nil]).
  assert (H2 : safeParse fragile JsNull tt = (Throw (TypeError "null"), tt))
    by reflexivity.
  split; [exact H1 | split; [exact H2 |]].
  exact (array_propagates_throw fragile None [JsNumber 1] JsNull [JsNumber 3]
           tt _ tt _ tt H1 H2).
Defined.

Lemma object_propagates_throw_witness :
  plain_proto ProtoObject /\
  fields_pass (World := unit) ProtoObject
    [("a", JsNumber 1); ("b", JsNull)] [("a", fragile)] tt
    [("a", JsNumber 1)] tt /\
  safeParse fragile
    (get_prop ProtoObject [("a", JsNumber 1); ("b", JsNull)] "b") tt
  = (Throw (TypeError "null"), tt) /\
  safeParse (object [("a", fragile); ("b", fragile); ("c", fragile)] None)
    (JsObject ProtoObject [("a", JsNumber 1); ("b", JsNull)]) tt
  = (Throw (TypeError "null"), tt).
Proof.
  assert (Hp : plain_proto ProtoObject) by (right; reflexivity).
  assert (H1 : fields_pass (World := unit) ProtoObject
                 [("a", JsNumber 1); ("b", JsNull)] [("a", fragile)] tt
                 [("a", JsNumber 1)] tt)
    by (apply fields_pass_cons with (w1 := tt);
        [reflexivity | apply fields_pass_nil]).
  assert (H2 : safeParse fragile
                 (get_prop ProtoObject [("a", JsNumber 1); ("b", JsNull)] "b")
                 tt
               = (Throw (TypeError "null"), tt)) by reflexivity.
  split; [exact Hp | split; [exact H1 | split; [exact H2 |]]].
  exact (proj1 (object_propagates_throw [("a", fragile)] "b" fragile
                  [("c", fragile)] None ProtoObject
                  [("a", JsNumber 1); ("b", JsNull)] tt _ tt _ tt Hp H1 H2)).
Defined.

Lemma source_schema_single_issue_witness :
  source_schema (World := unit)
    (array (object [("age", number None)] None) None) /\
  exists issue,
    safeParse (array (object [("age", number None)] None) None)
      (JsArray [JsObject ProtoObject [("age", JsString "x")];
                JsObject ProtoObject [("age", JsString "y")]]) tt
    = (Return (Failure [issue]), tt).
Proof.
  assert (H : source_schema (World := unit)
                (array (object [("age", number None)] None) None)).
  { apply source_array, source_object, source_shape_cons;
      [apply source_number | apply source_shape_nil]. }
  split; [exact H |].
  destruct (source_schema_single_issue _
              (JsArray [JsObject ProtoObject [("age", JsString "x")];
                        JsObject ProtoObject [("age", JsString "y")]]) tt
              _ tt H eq_refl) as [issue E].
  exists issue. simpl in E. rewrite <- E. reflexivity.
Defined.

Lemma messages_untouched_witness :
  fails_inside (World := unit)
    (array (maybe (object [("age", number (Some "Age?"))] None)) None)
    (JsArray [JsNull; JsObject ProtoNull []]) tt
    [Index 1; Key "age"]
    [{| message := "Age?"; path := None |}] tt /\
  exists outer,
    safeParse
      (array (maybe (object [("age", number (Some "Age?"))] None)) None)
      (JsArray [JsNull; JsObject ProtoNull []]) tt
    = (Return (Failure outer), tt) /\
    map message outer = ["Age?"].
Proof.
  assert (H : fails_inside (World := unit)
    (array (maybe (object [("age", number (Some "Age?"))] None)) None)
    (JsArray [JsNull; JsObject ProtoNull []]) tt
    [Index 1; Key "age"]
    [{| message := "Age?"; path := None |}] tt).
  { refine (fails_in_array
              (maybe (object [("age", number (Some "Age?"))] None)) None
              [JsNull] (JsObject ProtoNull []) [] tt [JsUndefined] tt
              [Key "age"] _ tt _ _).
    - apply elements_pass_cons with (w1 := tt);
        [reflexivity | apply elements_pass_nil].
    - apply fails_in_maybe; [reflexivity |].
      refine (fails_in_object [] "age" (number (Some "Age?")) [] None
                ProtoNull [] tt [] tt [] _ tt _ _ _).
      + left. reflexivity.
      + apply fields_pass_nil.
      + apply fails_here. reflexivity. }
  split; [exact H |].
  exact (messages_untouched _ _ _ _ _ _ H).
Defined.

Lemma validated_value_revalidates_witness :
  settled (World := unit)
    (object [("tags", array (string None) None);
             ("n", defaulted (number None) (JsNumber 0))] None) /\
  safeParse
    (object [("tags", array (string None) None);
             ("n", defaulted (number None) (JsNumber 0))] None)
    (JsObject ProtoObject
       [("extra", JsBoolean true); ("tags", JsArray [JsString "a"])]) tt
  = (Return (Success (JsObject ProtoNull
                        [("tags", JsArray [JsString "a"]);
                         ("n", JsNumber 0)])), tt) /\
  safeParse
    (object [("tags", array (string None) None);
             ("n", defaulted (number None) (JsNumber 0))] None)
    (JsObject ProtoNull [("tags", JsArray [JsString "a"]); ("n", JsNumber 0)])
    tt
  = (Return (Success (JsObject ProtoNull
                        [("tags", JsArray [JsString "a"]);
                         ("n", JsNumber 0)])), tt).
Proof.
  assert (Hs : settled (World := unit)
                 (object [("tags", array (string None) None);
                          ("n", defaulted (number None) (JsNumber 0))] None)).
  { apply settled_object.
    - apply NoDup_cons_2; [| apply NoDup_cons_2; [| apply NoDup_nil_2]].
      + intros H. apply list_elem_of_singleton in H. discriminate H.
      + intros H. inversion H.
    - apply settled_shape_cons;
        [apply settled_array, settled_string
        | apply settled_shape_cons; [| apply settled_shape_nil]].
      apply settled_defaulted; [apply settled_number | intros []; reflexivity]. }
  assert (H : safeParse
    (object [("tags", array (string None) None);
             ("n", defaulted (number None) (JsNumber 0))] None)
    (JsObject ProtoObject
       [("extra", JsBoolean true); ("tags", JsArray [JsString "a"])]) tt
  = (Return (Success (JsObject ProtoNull
                        [("tags", JsArray [JsString "a"]);
                         ("n", JsNumber 0)])), tt)) by reflexivity.
  split; [exact Hs | split; [exact H |]].
  exact (validated_value_revalidates _ _ _ _ _ Hs H).
Defined.

Lemma object_reads_declared_fields_witness :
  plain_proto ProtoObject /\
  plain_proto ProtoNull /\
  (forall key,
      key ∈ map fst [("name", string (World := unit) None)] ->
      get_prop ProtoObject [("name", JsString "a"); ("admin", JsBoolean true)]
        key
      = get_prop ProtoNull [("name", JsString "a")] key) /\
  safeParse (object [("name", string None)] None)
    (JsObject ProtoObject [("name", JsString "a"); ("admin", JsBoolean true)])
    tt
  = safeParse (object [("name", string None)] None)
      (JsObject ProtoNull [("name", JsString "a")]) tt.
Proof.
  assert (Hp1 : plain_proto ProtoObject) by (right; reflexivity).
  assert (Hp2 : plain_proto ProtoNull) by (left; reflexivity).
  assert (Hsame : forall key,
             key ∈ map fst [("name", string (World := unit) None)] ->
             get_prop ProtoObject
               [("name", JsString "a"); ("admin", JsBoolean true)] key
             = get_prop ProtoNull [("name", JsString "a")] key).
  { intros key Hkey. simpl in Hkey. apply list_elem_of_singleton in Hkey.
    rewrite Hkey. reflexivity. }
  split; [exact Hp1 | split; [exact Hp2 | split; [exact Hsame |]]].
  exact (object_reads_declared_fields _ None _ _ _ _ tt Hp1 Hp2 Hsame).
Defined.

Lemma verify_spec_witness :
  Crypto.hash Crypto.toy_PBKDF2 "secret" (replicate 16 Byte.x01) None
  = Crypto.Value (take 32 (list_byte_of_string "secret"
                           ++ replicate 16 Byte.x01
                           ++ replicate 32 Byte.x00)) /\
  (exists verdict,
      Crypto.verify Crypto.toy_PBKDF2 "secret"
        (take 32 (list_byte_of_string "secret" ++ replicate 16 Byte.x01
                  ++ replicate 32 Byte.x00))
        (replicate 16 Byte.x01) None
      = Crypto.Value verdict /\
      verdict = true) /\
  (length (replicate 15 Byte.x01) < 16)%nat /\
  Crypto.verify Crypto.toy_PBKDF2 "secret" [] (replicate 15 Byte.x01) None
  = Crypto.Error "Salt must be at least 16 bytes long for security.".
Proof.
  assert (H : Crypto.hash Crypto.toy_PBKDF2 "secret"
                (replicate 16 Byte.x01) None
              = Crypto.Value (take 32 (list_byte_of_string "secret"
                                       ++ replicate 16 Byte.x01
                                       ++ replicate 32 Byte.x00)))
    by reflexivity.
  assert (Hshort : (length (replicate 15 Byte.x01) < 16)%nat)
    by (simpl; lia).
  split; [exact H |]. split; [| split; [exact Hshort |]].
  - destruct (proj2 (proj2 (verify_spec Crypto.toy_PBKDF2 "secret"
                              (take 32 (list_byte_of_string "secret"
                                        ++ replicate 16 Byte.x01
                                        ++ replicate 32 Byte.x00))
                              (replicate 16 Byte.x01) None)) _ H)
      as (verdict & Hv & Hiff).
    exists verdict. split; [exact Hv | apply Hiff; reflexivity].
  - exact (proj1 (verify_spec Crypto.toy_PBKDF2 "secret" []
                    (replicate 15 Byte.x01) None) Hshort).
Defined.

Lemma generated_salt_is_accepted_witness :
  (forall a e salt e',
      Crypto.toy_getRandomValues a e = (Crypto.Value salt, e') ->
      length salt = length a) /\
  Crypto.generateSalt nat Crypto.toy_getRandomValues
    (Some (Crypto.Integer 15)) 0
  = (Crypto.Error "Salt length must be at least 16 bytes for security.", 0) /\
  Crypto.generateSalt nat Crypto.toy_getRandomValues None 0
  = (Crypto.Value (replicate 16 Byte.x07), 1) /\
  Crypto.hash Crypto.toy_PBKDF2 "secret" (replicate 16 Byte.x07) None
  = Crypto.toy_PBKDF2 "secret" (replicate 16 Byte.x07) 100000.
Proof.
  assert (Hfill : forall a e salt e',
             Crypto.toy_getRandomValues a e = (Crypto.Value salt, e') ->
             length salt = length a).
  { intros a e salt e' H. unfold Crypto.toy_getRandomValues in H.
    injection H as <- _. apply length_map. }
  assert (Hrun : Crypto.generateSalt nat Crypto.toy_getRandomValues None 0
                 = (Crypto.Value (replicate 16 Byte.x07), 1)) by reflexivity.
  split; [exact Hfill |]. split; [| split; [exact Hrun |]].
  - apply (proj1 (generated_salt_is_accepted Crypto.toy_PBKDF2 nat
                    Crypto.toy_getRandomValues (Some 15%Z) 0 Hfill)).
    simpl. lia.
  - exact (proj2 (proj2 (proj2 (generated_salt_is_accepted Crypto.toy_PBKDF2
                                  nat Crypto.toy_getRandomValues None 0 Hfill)
                           _ _ Hrun)) "secret" None).
Defined.

Lemma base64_round_trip_witness :
  (forall binary,
      Forall (fun u => (u < 256)%N) binary ->
      exists encoded, Crypto.toy_btoa binary = Crypto.Value encoded /\
                      Crypto.toy_atob encoded = Crypto.Value binary) /\
  (length [Byte.x68; Byte.x65; Byte.x6c; Byte.x6c; Byte.x6f] <= 8)%nat /\
  Crypto.toBase64 Crypto.toy_btoa 8
    [Byte.x68; Byte.x65; Byte.x6c; Byte.x6c; Byte.x6f]
  = Crypto.Value [105; 102; 109; 109; 112]%N /\
  Crypto.await
    (Crypto.toBase64 Crypto.toy_btoa 8
       [Byte.x68; Byte.x65; Byte.x6c; Byte.x6c; Byte.x6f])
    (Crypto.fromBase64 Crypto.toy_atob)
  = Crypto.Value [Byte.x68; Byte.x65; Byte.x6c; Byte.x6c; Byte.x6f].
Proof.
  assert (Hplatform : forall binary,
             Forall (fun u => (u < 256)%N) binary ->
             exists encoded, Crypto.toy_btoa binary = Crypto.Value encoded /\
                             Crypto.toy_atob encoded = Crypto.Value binary).
  { intros binary Hbin. exists (map N.succ binary).
    unfold Crypto.toy_btoa, Crypto.toy_atob.
    assert (H1 : forallb (fun u => N.ltb u 256) binary = true).
    { induction Hbin as [| u binary Hu _ IH]; simpl; [reflexivity |].
      rewrite IH, andb_true_r. apply N.ltb_lt, Hu. }
    assert (H2 : forallb (fun u => N.ltb 0 u && N.leb u 256)
                   (map N.succ binary) = true).
    { clear - Hbin.
      induction Hbin as [| u binary Hu _ IH]; simpl; [reflexivity |].
      rewrite IH, andb_true_r. apply andb_true_iff.
      split; [apply N.ltb_lt | apply N.leb_le]; lia. }
    rewrite H1, H2. split; [reflexivity |]. f_equal.
    rewrite map_map. clear. induction binary as [| u binary IH];
      simpl; [reflexivity |].
    rewrite N.pred_succ, IH. reflexivity. }
  assert (Hlen : (length [Byte.x68; Byte.x65; Byte.x6c; Byte.x6c; Byte.x6f]
                  <= 8)%nat) by (simpl; lia).
  split; [exact Hplatform | split; [exact Hlen | split; [reflexivity |]]].
  exact (proj1 (base64_round_trip Crypto.toy_btoa Crypto.toy_atob 8
                  [Byte.x68; Byte.x65; Byte.x6c; Byte.x6c; Byte.x6f]
                  Hplatform) Hlen).
Defined.

Lemma issue_paths_point_into_input_witness :
  source_schema (World := unit)
    (array (object [("age", number None)] None) None) /\
  safeParse (array (object [("age", number None)] None) None)
    (JsArray [JsObject ProtoObject [("age", JsNumber 1)];
              JsObject ProtoObject [("age", JsString "x")]]) tt
  = (Return (Failure [{| message := "Expected number";
                         path := Some [Index 1; Key "age"] |}]), tt) /\
  Forall (fun issue =>
            exists v,
              locate
                (JsArray [JsObject ProtoObject [("age", JsNumber 1)];
                          JsObject ProtoObject [("age", JsString "x")]])
                (default [] (path issue)) = Some v)
    [{| message := "Expected number"; path := Some [Index 1; Key "age"] |}].
Proof.
  assert (Hs : source_schema (World := unit)
                 (array (object [("age", number None)] None) None)).
  { apply source_array, source_object, source_shape_cons;
      [apply source_number | apply source_shape_nil]. }
  assert (H : safeParse (array (object [("age", number None)] None) None)
    (JsArray [JsObject ProtoObject [("age", JsNumber 1)];
              JsObject ProtoObject [("age", JsString "x")]]) tt
  = (Return (Failure [{| message := "Expected number";
                         path := Some [Index 1; Key "age"] |}]), tt))
    by reflexivity.
  split; [exact Hs | split; [exact H |]].
  exact (issue_paths_point_into_input _ _ _ _ _ Hs H).
Defined.
